(** * sr_btree: sysrepo's balanced binary tree wrapper

    A shallow embedding of [src/common/sr_btree.c].  The file wraps one of two
    external balanced-tree libraries, selected at compile time by
    [USE_AVL_LIB]: libavl ([avl.h]) or libredblack ([redblack.h]).  Both
    builds are embedded; every wrapper function below branches on the build
    exactly where the C source has [#ifdef USE_AVL_LIB ... #else ... #endif].

    Items are opaque [void *] pointers.  Pointer identity matters to the
    wrapper ([tmp_item != item] in [sr_btree_insert], the argument of the
    destructor in [sr_btree_delete]), so an item is its address and the
    caller's comparator is a function on addresses.

    Side effects of the C code (heap allocation that may fail, [free],
    [errno], calls of the item destructor) are threaded through a small
    state monad over a [world]. *)

From Stdlib Require Import ZArith NArith List Bool Lia Sorted.
From Stdlib Require Import Permutation.
Import ListNotations.
Local Open Scope Z_scope.

(** ** Pointers and result codes *)

Definition ptr := Z.
Definition NULL : ptr := 0.

(** The result codes of [sysrepo.h] that [sr_btree.c] returns. *)
Inductive sr_error_t :=
| SR_ERR_OK
| SR_ERR_INVAL_ARG
| SR_ERR_NOMEM
| SR_ERR_DATA_EXISTS.

(** [errno] values used by libavl and [malloc]. *)
Definition ENOMEM : Z := 12.
Definition EEXIST : Z := 17.

(** [int (*sr_btree_compare_item_cb)(const void *, const void *)]: negative,
    zero or positive. *)
Definition sr_btree_compare_item_cb := ptr -> ptr -> Z.

(** [void (*sr_btree_free_item_cb)(void *)]: [true] when a destructor is
    registered, [false] for a NULL callback.  Running the destructor on an
    item is recorded in the [destroyed] log of the world. *)
Definition sr_btree_free_item_cb := bool.

(** ** The world: allocator, errno and destructor log *)

Record world := mkWorld {
  allocs : list bool;     (* outcome of the coming allocation requests; none left: success *)
  live : Z;               (* heap blocks allocated and not yet freed *)
  failed : nat;           (* allocation requests that have failed so far *)
  errno : Z;
  destroyed : list ptr    (* arguments of the item destructor, oldest first *)
}.

Definition M (A : Type) : Type := world -> A * world.

Definition ret {A} (a : A) : M A := fun w => (a, w).

Definition bind {A B} (c : M A) (k : A -> M B) : M B :=
  fun w => let (a, w1) := c w in k a w1.

Declare Scope sr_scope.
Delimit Scope sr_scope with sr.
Notation "x <- c1 ;; c2" := (bind c1 (fun x => c2))
  (at level 61, c1 at next level, right associativity) : sr_scope.
Notation "' pat <- c1 ;; c2" := (bind c1 (fun x => match x with pat => c2 end))
  (at level 61, pat pattern, c1 at next level, right associativity) : sr_scope.
Notation "c1 ;; c2" := (bind c1 (fun _ => c2))
  (at level 61, right associativity) : sr_scope.
Local Open Scope sr_scope.

(** Modelled from the spec: the process-wide allocator.  [malloc]/[calloc]
    of one block: [true] when the block was obtained; a failing request
    sets [errno] to [ENOMEM]. *)
Definition malloc : M bool := fun w =>
  match allocs w with
  | false :: rest =>
      (false, mkWorld rest (live w) (S (failed w)) ENOMEM (destroyed w))
  | true :: rest =>
      (true, mkWorld rest (live w + 1) (failed w) (errno w) (destroyed w))
  | [] =>
      (true, mkWorld [] (live w + 1) (failed w) (errno w) (destroyed w))
  end.

(** [free] of [n] blocks. *)
Definition free_blocks (n : Z) : M unit := fun w =>
  (tt, mkWorld (allocs w) (live w - n) (failed w) (errno w) (destroyed w)).

Definition free_block : M unit := free_blocks 1.

Definition set_errno (e : Z) : M unit := fun w =>
  (tt, mkWorld (allocs w) (live w) (failed w) e (destroyed w)).

(** A call of the registered item destructor on [item]. *)
Definition call_free_item_cb (item : ptr) : M unit := fun w =>
  (tt, mkWorld (allocs w) (live w) (failed w) (errno w) (destroyed w ++ [item])).

(** The next allocation request succeeds. *)
Definition next_alloc_ok (w : world) : Prop := hd true (allocs w) = true.

(** ** Comparators *)

(** The order a comparator has to define (spec, section 3): equal items
    compare 0, swapping the arguments swaps the sign, and "not greater" is
    transitive. *)
Class TotalOrder (cmp : sr_btree_compare_item_cb) : Prop := {
  cmp_refl : forall x, cmp x x = 0;
  cmp_flip : forall x y, cmp x y < 0 <-> 0 < cmp y x;
  cmp_trans : forall x y z, cmp x y <= 0 -> cmp y z <= 0 -> cmp x z <= 0
}.

(** ** In-order contents of a balanced tree

    libavl and libredblack are external collaborators whose sources are not
    part of the repository (spec, section 1: "the specific balancing
    discipline chosen by the underlying library" is out of scope).  A
    library tree is represented by its in-order sequence of item pointers;
    search, linking and unlinking are the comparator descents of spec
    section 4.2 read on that sequence, with the key as first and the stored
    item as second comparator argument. *)
Section InOrder.
Variable cmp : sr_btree_compare_item_cb.

(** Modelled from the spec: the descent of the external libraries that
    "locates the node whose key compares equal"; the stored item comparing
    equal to [key], if any. *)
Fixpoint lookup (key : ptr) (l : list ptr) : option ptr :=
  match l with
  | [] => None
  | x :: rest =>
      if cmp key x =? 0 then Some x
      else if cmp key x <? 0 then None
      else lookup key rest
  end.

(** Modelled from the spec: the external libraries' linking of a new node
    at the insertion point found by the descent. *)
Fixpoint link (key : ptr) (l : list ptr) : list ptr :=
  match l with
  | [] => [key]
  | x :: rest =>
      if cmp key x <? 0 then key :: l else x :: link key rest
  end.

(** Modelled from the spec: the external libraries' unlinking of the node
    comparing equal to [key]. *)
Fixpoint unlink (key : ptr) (l : list ptr) : list ptr :=
  match l with
  | [] => []
  | x :: rest =>
      if cmp key x =? 0 then rest
      else if cmp key x <? 0 then l
      else x :: unlink key rest
  end.

(** Strictly increasing, non-NULL contents. *)
Definition ordered (l : list ptr) : Prop :=
  StronglySorted (fun x y => cmp x y < 0) l /\ Forall (fun x => x <> NULL) l.
End InOrder.

(** Modelled from the spec: libredblack's in-order successor; the node
    following the node that holds [k]. *)
Fixpoint node_after (k : ptr) (l : list ptr) : option ptr :=
  match l with
  | [] => None
  | x :: rest => if x =? k then hd_error rest else node_after k rest
  end.

(** ** libredblack

    [redblack.h] and the library behind it are not part of the repository.
    The comparator and its context pointer are registered by [rbinit] and
    kept in the tree header; as the context is a pointer to the wrapper's
    own tree object, the model receives the comparator and the object it
    points to at each call. *)
Module Redblack.

(** Modelled from the spec: libredblack's [struct rbtree], as the in-order
    sequence of the items its nodes hold. *)
Record rbtree := mkRbtree { rb_items : list ptr }.

(** Modelled from the spec: libredblack's [RBLIST], the "last visited"
    marker of the rank cursor.  [nextp] is the node the next read returns,
    named by the item it holds, [None] once the walk is past the last node.
    The marker is a bare pointer into the tree: the library does not update
    it when the tree changes, and reading through it after its node was
    freed by [rbdelete] is undefined in C. *)
Record RBLIST := mkRblist { nextp : option ptr }.

Section WithContext.
Context {C : Type}.
Variable rb_cmp : ptr -> ptr -> C -> Z.
Variable rb_config : C.

Definition cmp_in_context : sr_btree_compare_item_cb :=
  fun a b => rb_cmp a b rb_config.

(** Modelled from the spec: libredblack's [rbsearch], which finds the key
    or inserts it when it is absent.  Returns the pointer held by the tree
    (the one found, or [key] itself when it was inserted), NULL when the
    new node cannot be allocated. *)
Definition rbsearch (key : ptr) (rbinfo : rbtree) : M (ptr * rbtree) :=
  match lookup cmp_in_context key (rb_items rbinfo) with
  | Some x => ret (x, rbinfo)
  | None =>
      ok <- malloc ;;
      if ok then ret (key, mkRbtree (link cmp_in_context key (rb_items rbinfo)))
      else ret (NULL, rbinfo)
  end.

(** Modelled from the spec: libredblack's [rbfind]; the pointer held by
    the tree, NULL when absent. *)
Definition rbfind (key : ptr) (rbinfo : rbtree) : ptr :=
  match lookup cmp_in_context key (rb_items rbinfo) with
  | Some x => x
  | None => NULL
  end.

(** Modelled from the spec: libredblack's [rbdelete], which unlinks and
    frees the node comparing equal to [key]; returns the pointer it held,
    NULL when there is none.  The library knows no item destructor. *)
Definition rbdelete (key : ptr) (rbinfo : rbtree) : M (ptr * rbtree) :=
  match lookup cmp_in_context key (rb_items rbinfo) with
  | Some x =>
      free_block ;;
      ret (x, mkRbtree (unlink cmp_in_context key (rb_items rbinfo)))
  | None => ret (NULL, rbinfo)
  end.
End WithContext.

(** Modelled from the spec: libredblack's [rbinit], which allocates the
    tree header. *)
Definition rbinit : M (option rbtree) :=
  ok <- malloc ;;
  if ok then ret (Some (mkRbtree [])) else ret None.

(** Modelled from the spec: libredblack's [rbopenlist], which allocates a
    walk positioned on the first node. *)
Definition rbopenlist (rbinfo : rbtree) : M (option RBLIST) :=
  ok <- malloc ;;
  if ok then ret (Some (mkRblist (hd_error (rb_items rbinfo)))) else ret None.

(** Modelled from the spec: libredblack's [rbreadlist]; the item under the
    walk (NULL past the end), and the walk moved to the in-order successor.
    The C function follows the links of the node under [nextp]; the model
    reads them off the tree.  This is what the library does for a walk
    with no [rbdelete] since its [rbopenlist] (insertions relink nodes but
    neither free nor re-key them); after a deletion the node under [nextp]
    may be freed or hold another key, and the statements about reads are
    made for walks opened since the last deletion only. *)
Definition rbreadlist (rblistp : RBLIST) (rbinfo : rbtree) : ptr * RBLIST :=
  match nextp rblistp with
  | None => (NULL, rblistp)
  | Some k => (k, mkRblist (node_after k (rb_items rbinfo)))
  end.

(** Modelled from the spec: libredblack's [rbcloselist], which frees the
    walk. *)
Definition rbcloselist (rblistp : RBLIST) : M unit := free_block.

(** Modelled from the spec: libredblack's [rbdestroy], which frees every
    node and the header. *)
Definition rbdestroy (rbinfo : rbtree) : M unit :=
  free_blocks (Z.of_nat (length (rb_items rbinfo)) + 1).

End Redblack.

(** ** libavl

    [avl.h] and the library behind it are not part of the repository.  The
    tree header keeps the comparator and the item destructor given to
    [avl_alloc_tree]. *)
Module Avl.

(** Modelled from the spec: libavl's [avl_node_t]; the wrapper reads its
    [item] only. *)
Record avl_node_t := mkNode { item : ptr }.

(** Modelled from the spec: libavl's [avl_tree_t]; the registered callbacks
    and the in-order sequence of the items its nodes hold. *)
Record avl_tree_t := mkAvl {
  avl_cmp : sr_btree_compare_item_cb;
  avl_freeitem : sr_btree_free_item_cb;
  avl_items : list ptr
}.

Definition with_items (t : avl_tree_t) (l : list ptr) : avl_tree_t :=
  mkAvl (avl_cmp t) (avl_freeitem t) l.

(** Modelled from the spec: libavl's [avl_alloc_tree], which allocates an
    empty tree. *)
Definition avl_alloc_tree (cmp : sr_btree_compare_item_cb)
    (freeitem : sr_btree_free_item_cb) : M (option avl_tree_t) :=
  ok <- malloc ;;
  if ok then ret (Some (mkAvl cmp freeitem [])) else ret None.

(** Modelled from the spec: libavl's [avl_insert], which allocates a node
    and then links it.  Returns NULL with [errno] left at [ENOMEM] by the
    failed allocation, or set to [EEXIST] (the new node being freed again)
    when an equal item is stored. *)
Definition avl_insert (t : avl_tree_t) (it : ptr)
    : M (option avl_node_t * avl_tree_t) :=
  ok <- malloc ;;
  if ok then
    match lookup (avl_cmp t) it (avl_items t) with
    | None => ret (Some (mkNode it), with_items t (link (avl_cmp t) it (avl_items t)))
    | Some _ => free_block ;; set_errno EEXIST ;; ret (None, t)
    end
  else ret (None, t).

(** Modelled from the spec: libavl's [avl_delete], which unlinks the node
    comparing equal to [it], runs the destructor on the item it held and
    frees it; NULL when there is none. *)
Definition avl_delete (t : avl_tree_t) (it : ptr) : M (ptr * avl_tree_t) :=
  match lookup (avl_cmp t) it (avl_items t) with
  | Some x =>
      (if avl_freeitem t then call_free_item_cb x else ret tt) ;;
      free_block ;;
      ret (x, with_items t (unlink (avl_cmp t) it (avl_items t)))
  | None => ret (NULL, t)
  end.

(** Modelled from the spec: libavl's [avl_search]; the node comparing
    equal to [it]. *)
Definition avl_search (t : avl_tree_t) (it : ptr) : option avl_node_t :=
  option_map mkNode (lookup (avl_cmp t) it (avl_items t)).

(** Modelled from the spec: libavl's [avl_at]; the node at an in-order
    position, NULL when out of range.  libavl takes the position as an
    [unsigned int]: the [size_t] index of [sr_btree_get_at] reaches it
    unchanged only when it is below 2^32, and the statements that depend on
    the index are made for such indices. *)
Definition avl_at (t : avl_tree_t) (index : N) : option avl_node_t :=
  option_map mkNode (nth_error (avl_items t) (N.to_nat index)).

(** Modelled from the spec: the node loop of libavl's [avl_free_tree]; the
    destructor runs on each item, first to last, and its node is freed. *)
Fixpoint free_nodes (freeitem : sr_btree_free_item_cb) (l : list ptr) : M unit :=
  match l with
  | [] => ret tt
  | x :: rest =>
      (if freeitem then call_free_item_cb x else ret tt) ;;
      free_block ;;
      free_nodes freeitem rest
  end.

(** Modelled from the spec: libavl's [avl_free_tree], which destroys every
    node and then frees the header. *)
Definition avl_free_tree (t : avl_tree_t) : M unit :=
  free_nodes (avl_freeitem t) (avl_items t) ;;
  free_block.

End Avl.

Import Redblack Avl.

(** ** The wrapper: [sr_btree_t] *)

(** The library part of [struct sr_btree_s]: [avl_tree] under
    [USE_AVL_LIB], otherwise [rb_tree] and the walk [rb_list] (NULL when no
    walk is open). *)
Inductive sr_btree_lib :=
| AvlLib (avl_tree : avl_tree_t)
| RedblackLib (rb_tree : rbtree) (rb_list : option RBLIST).

Record sr_btree_t := mkTree {
  lib : sr_btree_lib;
  compare_item_cb : sr_btree_compare_item_cb;
  free_item_cb : sr_btree_free_item_cb
}.

Definition with_lib (tree : sr_btree_t) (l : sr_btree_lib) : sr_btree_t :=
  mkTree l (compare_item_cb tree) (free_item_cb tree).

(** Internal callback used only by the red-black tree. *)
Definition sr_redblack_compare_item_cb (item1 item2 : ptr)
    (ctx : option sr_btree_t) : Z :=
  match ctx with
  | Some tree => compare_item_cb tree item1 item2
  | None => 0
  end.

(** [sr_btree_init].  [CHECK_NULL_ARG2] (of [sr_common.h], which is not part
    of the sources) returns [SR_ERR_INVAL_ARG] when one of its arguments is
    NULL.  [tree_p] tells whether the out-parameter is non-NULL; the second
    component of the result is the tree stored through it, if any. *)
Definition sr_btree_init (USE_AVL_LIB : bool)
    (compare_item_cb : option sr_btree_compare_item_cb)
    (free_item_cb : sr_btree_free_item_cb) (tree_p : bool)
    : M (sr_error_t * option sr_btree_t) :=
  match compare_item_cb with
  | None => ret (SR_ERR_INVAL_ARG, None)
  | Some cmp =>
      if negb tree_p then ret (SR_ERR_INVAL_ARG, None)
      else
        ok <- malloc ;;
        if negb ok then ret (SR_ERR_NOMEM, None)
        else if USE_AVL_LIB then
          a <- avl_alloc_tree cmp free_item_cb ;;
          match a with
          | None => free_block ;; ret (SR_ERR_NOMEM, None)
          | Some avl_tree =>
              ret (SR_ERR_OK, Some (mkTree (AvlLib avl_tree) cmp free_item_cb))
          end
        else
          r <- rbinit ;;
          match r with
          | None => free_block ;; ret (SR_ERR_NOMEM, None)
          | Some rb_tree =>
              ret (SR_ERR_OK, Some (mkTree (RedblackLib rb_tree None) cmp free_item_cb))
          end
  end.

(** The [while ((item = rbreadlist(rblist))) free_item_cb(item);] loop of
    [sr_btree_cleanup]; [None] when [fuel] iterations did not reach the
    end of the walk. *)
Fixpoint free_items_loop (fuel : nat) (rb_tree : rbtree) (rblist : RBLIST)
    : M (option RBLIST) :=
  match fuel with
  | O => ret None
  | S fuel' =>
      let (it, rblist') := rbreadlist rblist rb_tree in
      if it =? NULL then ret (Some rblist')
      else call_free_item_cb it ;; free_items_loop fuel' rb_tree rblist'
  end.

(** [sr_btree_cleanup]; [None] when the destructor loop ran out of [fuel].
    The tree object is gone afterwards. *)
Definition sr_btree_cleanup (fuel : nat) (tree : option sr_btree_t)
    : M (option unit) :=
  match tree with
  | None => ret (Some tt)
  | Some t =>
      match lib t with
      | AvlLib avl_tree =>
          avl_free_tree avl_tree ;;
          free_block ;;
          ret (Some tt)
      | RedblackLib rb_tree rb_list =>
          finished <-
            (if free_item_cb t then
               rblist <- rbopenlist rb_tree ;;
               match rblist with
               | Some rl =>
                   r <- free_items_loop fuel rb_tree rl ;;
                   match r with
                   | Some rl' => rbcloselist rl' ;; ret true
                   | None => ret false
                   end
               | None => ret true
               end
             else ret true) ;;
          if finished : bool then
            match rb_list with
            | Some rl => rbcloselist rl
            | None => ret tt
            end ;;
            rbdestroy rb_tree ;;
            free_block ;;
            ret (Some tt)
          else ret None
      end
  end.

(** [sr_btree_insert]; the second component is the tree object after the
    call. *)
Definition sr_btree_insert (tree : option sr_btree_t) (item : ptr)
    : M (sr_error_t * option sr_btree_t) :=
  match tree with
  | None => ret (SR_ERR_INVAL_ARG, tree)
  | Some t =>
      if item =? NULL then ret (SR_ERR_INVAL_ARG, tree)
      else
        match lib t with
        | AvlLib avl_tree =>
            '(node, avl_tree') <- avl_insert avl_tree item ;;
            e <- (fun w => (errno w, w)) ;;
            let tree' := Some (with_lib t (AvlLib avl_tree')) in
            match node with
            | None =>
                if e =? EEXIST then ret (SR_ERR_DATA_EXISTS, tree')
                else ret (SR_ERR_NOMEM, tree')
            | Some _ => ret (SR_ERR_OK, tree')
            end
        | RedblackLib rb_tree rb_list =>
            '(tmp_item, rb_tree') <-
              rbsearch sr_redblack_compare_item_cb (Some t) item rb_tree ;;
            let tree' := Some (with_lib t (RedblackLib rb_tree' rb_list)) in
            if tmp_item =? NULL then ret (SR_ERR_NOMEM, tree')
            else if negb (tmp_item =? item) then ret (SR_ERR_DATA_EXISTS, tree')
            else ret (SR_ERR_OK, tree')
        end
  end.

(** [sr_btree_delete]; the result is the tree object after the call. *)
Definition sr_btree_delete (tree : option sr_btree_t) (item : ptr)
    : M (option sr_btree_t) :=
  match tree with
  | None => ret tree
  | Some t =>
      if item =? NULL then ret tree
      else
        match lib t with
        | AvlLib avl_tree =>
            '(_, avl_tree') <- avl_delete avl_tree item ;;
            ret (Some (with_lib t (AvlLib avl_tree')))
        | RedblackLib rb_tree rb_list =>
            '(_, rb_tree') <-
              rbdelete sr_redblack_compare_item_cb (Some t) item rb_tree ;;
            (if free_item_cb t then call_free_item_cb item else ret tt) ;;
            ret (Some (with_lib t (RedblackLib rb_tree' rb_list)))
        end
  end.

(** [sr_btree_search]; the tree is passed by [const] pointer, the second
    component is the tree object after the call. *)
Definition sr_btree_search (tree : option sr_btree_t) (item : ptr)
    : M (ptr * option sr_btree_t) :=
  match tree with
  | None => ret (NULL, tree)
  | Some t =>
      if item =? NULL then ret (NULL, tree)
      else
        match lib t with
        | AvlLib avl_tree =>
            match avl_search avl_tree item with
            | Some node => ret (Avl.item node, tree)
            | None => ret (NULL, tree)
            end
        | RedblackLib rb_tree _ =>
            ret (rbfind sr_redblack_compare_item_cb (Some t) item rb_tree, tree)
        end
  end.

(** [sr_btree_get_at]; the second component is the tree object after the
    call. *)
Definition sr_btree_get_at (tree : option sr_btree_t) (index : N)
    : M (ptr * option sr_btree_t) :=
  match tree with
  | None => ret (NULL, tree)
  | Some t =>
      match lib t with
      | AvlLib avl_tree =>
          match avl_at avl_tree index with
          | Some node => ret (Avl.item node, tree)
          | None => ret (NULL, tree)
          end
      | RedblackLib rb_tree rb_list =>
          rb_list1 <-
            (if (index =? 0)%N then
               match rb_list with
               | Some old => rbcloselist old
               | None => ret tt
               end ;;
               rbopenlist rb_tree
             else ret rb_list) ;;
          match rb_list1 with
          | Some rl =>
              let (it, rl') := rbreadlist rl rb_tree in
              if it =? NULL then
                rbcloselist rl' ;;
                ret (it, Some (with_lib t (RedblackLib rb_tree None)))
              else ret (it, Some (with_lib t (RedblackLib rb_tree (Some rl'))))
          | None => ret (NULL, Some (with_lib t (RedblackLib rb_tree None)))
          end
      end
  end.

(** ** Views of a tree used by the statements *)

(** The items stored in the tree, in order. *)
Definition contents (t : sr_btree_t) : list ptr :=
  match lib t with
  | AvlLib avl_tree => avl_items avl_tree
  | RedblackLib rb_tree _ => rb_items rb_tree
  end.

(** The open walk of the red-black build ([tree->rb_list]); the AVL build
    has none. *)
Definition cursor (t : sr_btree_t) : option RBLIST :=
  match lib t with
  | AvlLib _ => None
  | RedblackLib _ rb_list => rb_list
  end.

Definition is_redblack (t : sr_btree_t) : bool :=
  match lib t with
  | AvlLib _ => false
  | RedblackLib _ _ => true
  end.

(** Heap blocks a tree owns: its context, the library header, one node per
    item and the open walk. *)
Definition blocks_owned (t : sr_btree_t) : Z :=
  2 + Z.of_nat (length (contents t)) + match cursor t with Some _ => 1 | None => 0 end.

(** The invariant of a tree built by [sr_btree_init] and the operations:
    the comparator is a total order, the contents are strictly increasing
    and non-NULL, and libavl's header holds the callbacks of the context. *)
Definition wf (t : sr_btree_t) : Prop :=
  TotalOrder (compare_item_cb t) /\
  ordered (compare_item_cb t) (contents t) /\
  match lib t with
  | AvlLib avl_tree =>
      avl_cmp avl_tree = compare_item_cb t /\
      avl_freeitem avl_tree = free_item_cb t
  | RedblackLib _ _ => True
  end.

(** Successive [sr_btree_get_at] calls with the given indices. *)
Fixpoint walk (tree : option sr_btree_t) (indices : list N)
    : M (list ptr * option sr_btree_t) :=
  match indices with
  | [] => ret ([], tree)
  | i :: rest =>
      '(it, tree1) <- sr_btree_get_at tree i ;;
      '(its, tree2) <- walk tree1 rest ;;
      ret (it :: its, tree2)
  end.

(** The indices 0, 1, ..., n-1. *)
Definition upto (n : nat) : list N := map N.of_nat (seq 0 n).

(** A requested allocation failed between two worlds. *)
Definition alloc_failed (w w' : world) : Prop := failed w <> failed w'.

(** ** A concrete instance

    Items are 16-byte records; the comparator orders them by record number,
    so that two distinct pointers into one record compare equal. *)
Definition by_record : sr_btree_compare_item_cb := fun a b => a / 16 - b / 16.

Definition world0 (outcomes : list bool) : world := mkWorld outcomes 0 0 0 [].

Definition rb_tree_of (l : list ptr) (rb_list : option RBLIST)
    (free_item_cb : sr_btree_free_item_cb) : sr_btree_t :=
  mkTree (RedblackLib (mkRbtree l) rb_list) by_record free_item_cb.

Definition avl_tree_of (l : list ptr) (free_item_cb : sr_btree_free_item_cb)
    : sr_btree_t :=
  mkTree (AvlLib (mkAvl by_record free_item_cb l)) by_record free_item_cb.

(** Insert the items one after the other, ignoring the result codes. *)
Fixpoint insert_all (tree : option sr_btree_t) (items : list ptr)
    : M (option sr_btree_t) :=
  match items with
  | [] => ret tree
  | x :: rest =>
      '(_, tree1) <- sr_btree_insert tree x ;;
      insert_all tree1 rest
  end.

(** Decidable form of [ordered], for concrete contents. *)
Fixpoint increasingb (cmp : sr_btree_compare_item_cb) (l : list ptr) : bool :=
  match l with
  | [] => true
  | x :: rest => forallb (fun y => cmp x y <? 0) rest && increasingb cmp rest
  end.

Definition orderedb (cmp : sr_btree_compare_item_cb) (l : list ptr) : bool :=
  increasingb cmp l && forallb (fun x => negb (x =? NULL)) l.

(** The scenario of the spec (section 8): the records 5,3,8,1,4,7,9,2,6 are
    inserted into a fresh tree with a destructor, read back by index, record
    5 is deleted and searched for, the rest is read back and the tree is
    cleaned up.  The result is the first walk, the search result, the second
    walk, the destructor log and the number of live blocks at the end. *)
Definition scenario (use_avl : bool)
    : list ptr * ptr * list ptr * list ptr * Z :=
  let items := map (Z.mul 16) [5; 3; 8; 1; 4; 7; 9; 2; 6] in
  let '(_, t0, w0) := sr_btree_init use_avl (Some by_record) true true (world0 []) in
  let '(t1, w1) := insert_all t0 items w0 in
  let '(walk1, t2, w2) := walk t1 (upto 9) w1 in
  let '(t3, w3) := sr_btree_delete t2 80 w2 in
  let '(found, t4, w4) := sr_btree_search t3 80 w3 in
  let '(walk2, t5, w5) := walk t4 (upto 8) w4 in
  let '(_, w6) := sr_btree_cleanup 9 t5 w5 in
  (walk1, found, walk2, destroyed w6, live w6).

(** ** Sequences of calls

    A client of the tree: the calls it may issue between [sr_btree_init] and
    [sr_btree_cleanup], and their execution one after the other on the same
    tree object, result values being dropped. *)
Inductive op :=
| OpInsert (item : ptr)
| OpDelete (item : ptr)
| OpSearch (item : ptr)
| OpGetAt (index : N).

Definition run_op (tree : option sr_btree_t) (o : op) : M (option sr_btree_t) :=
  match o with
  | OpInsert item => '(_, tree') <- sr_btree_insert tree item ;; ret tree'
  | OpDelete item => sr_btree_delete tree item
  | OpSearch item => '(_, tree') <- sr_btree_search tree item ;; ret tree'
  | OpGetAt index => '(_, tree') <- sr_btree_get_at tree index ;; ret tree'
  end.

Fixpoint run_ops (tree : option sr_btree_t) (ops : list op)
    : M (option sr_btree_t) :=
  match ops with
  | [] => ret tree
  | o :: rest => tree' <- run_op tree o ;; run_ops tree' rest
  end.

(** The abstract reading of the calls, to compare the code with: a tree is
    the increasing list of its items; an insertion adds the item unless an
    equal one is present, a deletion removes the equal one, NULL arguments
    and reads change nothing. *)
Definition link_new (cmp : sr_btree_compare_item_cb) (l : list ptr) (x : ptr)
    : list ptr :=
  match lookup cmp x l with
  | Some _ => l
  | None => link cmp x l
  end.

Definition model_op (cmp : sr_btree_compare_item_cb) (l : list ptr) (o : op)
    : list ptr :=
  match o with
  | OpInsert x => if x =? NULL then l else link_new cmp l x
  | OpDelete x => if x =? NULL then l else unlink cmp x l
  | OpSearch _ => l
  | OpGetAt _ => l
  end.

(** No two items of the list compare equal. *)
Definition keys_distinct (cmp : sr_btree_compare_item_cb) (l : list ptr) : Prop :=
  forall x y, In x l -> In y l -> cmp x y = 0 -> x = y.

(** ** Walk states used by the statements *)

(** The block a walk occupies: one when it is open. *)
Definition walk_blocks (l : option RBLIST) : Z :=
  match l with
  | Some _ => 1
  | None => 0
  end.

(** The walk a call with index 0 leaves behind: in the red-black build a new
    walk that has read the first item and stands on the second, or none
    when the tree is empty (the read ran off the end at once); the AVL build
    has no walk. *)
Definition fresh_walk (t : sr_btree_t) : option RBLIST :=
  if is_redblack t then
    match contents t with
    | [] => None
    | _ :: rest => Some (mkRblist (hd_error rest))
    end
  else None.

(** The tree object with [tree->rb_list] replaced. *)
Definition with_cursor (t : sr_btree_t) (l : option RBLIST) : sr_btree_t :=
  match lib t with
  | AvlLib _ => t
  | RedblackLib rb_tree _ => with_lib t (RedblackLib rb_tree l)
  end.

(** A sequence of calls that never reads, with a nonzero index, a walk
    that may have been open across a deletion: [rbdelete] frees or re-keys
    nodes without telling the walk, so that such a read is undefined in C.
    [stale] tells whether a deletion took place since the last call with
    index 0 (which closes any walk and opens a new one). *)
Fixpoint fresh_reads (stale : bool) (ops : list op) : bool :=
  match ops with
  | [] => true
  | OpDelete _ :: rest => fresh_reads true rest
  | OpGetAt index :: rest =>
      if (index =? 0)%N then fresh_reads false rest
      else negb stale && fresh_reads stale rest
  | _ :: rest => fresh_reads stale rest
  end.

(** The calls read on a plain collection, in no particular order: an
    insertion adds the item unless one comparing equal is there, a deletion
    drops whatever compares equal to the key. *)
Definition set_op (cmp : sr_btree_compare_item_cb) (s : list ptr) (o : op)
    : list ptr :=
  match o with
  | OpInsert x =>
      if (x =? NULL) || existsb (fun y => cmp x y =? 0) s then s else x :: s
  | OpDelete x =>
      if x =? NULL then s else filter (fun y => negb (cmp x y =? 0)) s
  | OpSearch _ => s
  | OpGetAt _ => s
  end.

(** * Facts about in-order contents *)

Section InOrderFacts.
Context (cmp : sr_btree_compare_item_cb) `{TotalOrder cmp}.

Lemma cmp_eq_sym x y : cmp x y = 0 -> cmp y x = 0.
Proof.
  intros E. pose proof (cmp_flip x y) as F1. pose proof (cmp_flip y x) as F2.
  lia.
Qed.

Lemma cmp_gt_lt x y : 0 < cmp x y -> cmp y x < 0.
Proof. intros G. apply cmp_flip. exact G. Qed.

Lemma cmp_lt_trans x y z : cmp x y < 0 -> cmp y z < 0 -> cmp x z < 0.
Proof.
  intros Hxy Hyz.
  assert (Hxz : cmp x z <= 0) by (apply (cmp_trans x y z); lia).
  destruct (Z.eq_dec (cmp x z) 0) as [E|]; [|lia].
  apply cmp_eq_sym in E.
  assert (cmp z y <= 0) by (apply (cmp_trans z x y); lia).
  apply cmp_flip in Hyz. lia.
Qed.

Lemma cmp_eq_lt k x y : cmp k x = 0 -> cmp x y < 0 -> cmp k y < 0.
Proof.
  intros E L.
  assert (Hky : cmp k y <= 0) by (apply (cmp_trans k x y); lia).
  destruct (Z.eq_dec (cmp k y) 0) as [E'|]; [|lia].
  apply cmp_eq_sym in E'.
  assert (cmp y x <= 0) by (apply (cmp_trans y k x); lia).
  apply cmp_flip in L. lia.
Qed.

Lemma cmp_eq_trans x y z : cmp x y = 0 -> cmp y z = 0 -> cmp x z = 0.
Proof.
  intros Exy Eyz.
  assert (cmp x z <= 0) by (apply (cmp_trans x y z); lia).
  assert (cmp z x <= 0).
  { apply (cmp_trans z y x); [apply cmp_eq_sym in Eyz|apply cmp_eq_sym in Exy]; lia. }
  pose proof (cmp_flip x z). lia.
Qed.

Lemma cmp_lt_eq x y k : cmp x y < 0 -> cmp y k = 0 -> cmp x k < 0.
Proof.
  intros L E.
  assert (Hxk : cmp x k <= 0) by (apply (cmp_trans x y k); lia).
  destruct (Z.eq_dec (cmp x k) 0) as [E'|]; [|lia].
  assert (cmp x y = 0); [|lia].
  apply (cmp_eq_trans x k y); [exact E'|apply cmp_eq_sym; exact E].
Qed.

Local Notation "'sorted'" := (StronglySorted (fun x y => cmp x y < 0)).

Lemma sorted_NoDup l : sorted l -> NoDup l.
Proof.
  induction 1 as [|x l Hs IH Hx]; constructor; auto.
  intros Hin. rewrite Forall_forall in Hx. specialize (Hx x Hin).
  rewrite cmp_refl in Hx. lia.
Qed.

Lemma lookup_Some key l x :
  lookup cmp key l = Some x -> In x l /\ cmp key x = 0.
Proof.
  induction l as [|y l IH]; simpl; [discriminate|].
  destruct (cmp key y =? 0) eqn:E.
  - intros [= ->]. split; [now left|lia].
  - destruct (cmp key y <? 0); [discriminate|].
    intros Hl. destruct (IH Hl). split; [now right|assumption].
Qed.

Lemma lookup_None key l :
  sorted l -> lookup cmp key l = None -> forall x, In x l -> cmp key x <> 0.
Proof.
  induction 1 as [|y l Hs IH Hy]; simpl; [contradiction|].
  destruct (cmp key y =? 0) eqn:E; [discriminate|].
  apply Z.eqb_neq in E.
  rewrite Forall_forall in Hy.
  destruct (cmp key y <? 0) eqn:L; intros Hl x [->|Hin]; auto.
  apply Z.ltb_lt in L.
  pose proof (cmp_lt_trans key y x L (Hy x Hin)). lia.
Qed.

Lemma lookup_complete key l x :
  sorted l -> In x l -> cmp key x = 0 -> lookup cmp key l = Some x.
Proof.
  induction 1 as [|y l Hs IH Hy]; simpl; [contradiction|].
  rewrite Forall_forall in Hy.
  intros [->|Hin] E.
  - rewrite E. reflexivity.
  - specialize (Hy x Hin).
    destruct (cmp key y =? 0) eqn:E1.
    + apply Z.eqb_eq in E1.
      pose proof (cmp_eq_trans y key x (cmp_eq_sym _ _ E1) E). lia.
    + destruct (cmp key y <? 0) eqn:L; [|auto].
      apply Z.ltb_lt in L.
      pose proof (cmp_lt_trans key y x L Hy). lia.
Qed.

Lemma link_In key l y : In y (link cmp key l) <-> y = key \/ In y l.
Proof.
  induction l as [|x l IH]; simpl.
  - intuition.
  - destruct (cmp key x <? 0); simpl; rewrite ?IH; intuition.
Qed.

Lemma link_length key l : length (link cmp key l) = S (length l).
Proof.
  induction l as [|x l IH]; simpl; [reflexivity|].
  destruct (cmp key x <? 0); simpl; congruence.
Qed.

Lemma link_sorted key l :
  sorted l -> lookup cmp key l = None -> sorted (link cmp key l).
Proof.
  induction 1 as [|x l Hs IH Hx]; simpl.
  - intros _. repeat constructor.
  - destruct (cmp key x =? 0) eqn:E; [discriminate|].
    apply Z.eqb_neq in E.
    destruct (cmp key x <? 0) eqn:L.
    + intros _. apply Z.ltb_lt in L.
      constructor; [constructor; assumption|].
      constructor; [assumption|].
      rewrite Forall_forall in *. intros z Hz.
      apply (cmp_lt_trans key x z L (Hx z Hz)).
    + intros Hl. apply Z.ltb_ge in L.
      constructor; [auto|].
      rewrite Forall_forall in *. intros z Hz.
      apply link_In in Hz. destruct Hz as [->|Hz]; [|auto].
      apply cmp_gt_lt. lia.
Qed.

Lemma unlink_absent key l : lookup cmp key l = None -> unlink cmp key l = l.
Proof.
  induction l as [|x l IH]; simpl; [reflexivity|].
  destruct (cmp key x =? 0); [discriminate|].
  destruct (cmp key x <? 0); [reflexivity|].
  intros Hl. now rewrite IH.
Qed.

Lemma unlink_sub key l y : In y (unlink cmp key l) -> In y l.
Proof.
  induction l as [|x l IH]; simpl; [auto|].
  destruct (cmp key x =? 0); [auto|].
  destruct (cmp key x <? 0); [auto|].
  simpl. intuition.
Qed.

Lemma unlink_sorted key l : sorted l -> sorted (unlink cmp key l).
Proof.
  induction 1 as [|x l Hs IH Hx]; simpl; [constructor|].
  destruct (cmp key x =? 0); [assumption|].
  destruct (cmp key x <? 0); [constructor; assumption|].
  constructor; [assumption|].
  rewrite Forall_forall in *. intros z Hz. apply Hx.
  eapply unlink_sub; eassumption.
Qed.

Lemma unlink_not_equal key l y :
  sorted l -> In y (unlink cmp key l) -> cmp key y <> 0.
Proof.
  induction 1 as [|x l Hs IH Hx]; simpl; [contradiction|].
  rewrite Forall_forall in Hx.
  destruct (cmp key x =? 0) eqn:E.
  - apply Z.eqb_eq in E. intros Hin.
    pose proof (cmp_eq_lt key x y E (Hx y Hin)). lia.
  - apply Z.eqb_neq in E.
    destruct (cmp key x <? 0) eqn:L.
    + apply Z.ltb_lt in L. intros [->|Hin]; [assumption|].
      pose proof (cmp_lt_trans key x y L (Hx y Hin)). lia.
    + intros [->|Hin]; auto.
Qed.

Lemma unlink_present key l x :
  lookup cmp key l = Some x ->
  exists pre suf, l = pre ++ x :: suf /\ unlink cmp key l = pre ++ suf.
Proof.
  induction l as [|y l IH]; simpl; [discriminate|].
  destruct (cmp key y =? 0).
  - intros [= ->]. exists [], l. auto.
  - destruct (cmp key y <? 0); [discriminate|].
    intros Hl. destruct (IH Hl) as (pre & suf & -> & ->).
    exists (y :: pre), suf. auto.
Qed.

Lemma lookup_link key l k :
  sorted l -> lookup cmp key l = None -> cmp k key = 0 ->
  lookup cmp k (link cmp key l) = Some key.
Proof.
  intros Hs Hl E. apply lookup_complete; auto using link_sorted.
  apply link_In. now left.
Qed.

Lemma lookup_unlink key l k :
  sorted l -> cmp k key = 0 -> lookup cmp k (unlink cmp key l) = None.
Proof.
  intros Hs E.
  destruct (lookup cmp k (unlink cmp key l)) as [x|] eqn:Hl; [|reflexivity].
  apply lookup_Some in Hl. destruct Hl as [Hin Ex].
  pose proof (unlink_not_equal key l x Hs Hin) as Hne.
  pose proof (cmp_eq_trans key k x (cmp_eq_sym _ _ E) Ex). contradiction.
Qed.

Lemma ordered_link key l :
  ordered cmp l -> key <> NULL -> lookup cmp key l = None ->
  ordered cmp (link cmp key l).
Proof.
  intros [Hs Hn] Hk Hl. split; [auto using link_sorted|].
  rewrite Forall_forall in *. intros z Hz.
  apply link_In in Hz. destruct Hz as [->|Hz]; auto.
Qed.

Lemma ordered_unlink key l : ordered cmp l -> ordered cmp (unlink cmp key l).
Proof.
  intros [Hs Hn]. split; [auto using unlink_sorted|].
  rewrite Forall_forall in *. intros z Hz. apply Hn.
  eapply unlink_sub; eassumption.
Qed.

Lemma node_after_split pre k suf :
  NoDup (pre ++ k :: suf) -> node_after k (pre ++ k :: suf) = hd_error suf.
Proof.
  induction pre as [|y pre IH]; simpl; intros Hnd.
  - now rewrite Z.eqb_refl.
  - inversion Hnd as [|? ? Hy Hnd']; subst.
    destruct (y =? k) eqn:E.
    + apply Z.eqb_eq in E. subst. exfalso. apply Hy.
      apply in_or_app. right. now left.
    + auto.
Qed.
End InOrderFacts.

(** * The concrete comparator *)

#[local] Instance by_record_order : TotalOrder by_record.
Proof.
  split; unfold by_record; intros; lia.
Qed.

Lemma increasingb_sound cmp l :
  increasingb cmp l = true -> StronglySorted (fun x y => cmp x y < 0) l.
Proof.
  induction l as [|x l IH]; simpl; [constructor|].
  intros Hb. apply andb_prop in Hb. destruct Hb as [Hx Hl].
  constructor; [auto|].
  rewrite forallb_forall in Hx. rewrite Forall_forall.
  intros y Hy. apply Z.ltb_lt. auto.
Qed.

Lemma orderedb_sound cmp l : orderedb cmp l = true -> ordered cmp l.
Proof.
  unfold orderedb, ordered. intros Hb.
  apply andb_prop in Hb. destruct Hb as [Hi Hn].
  split; [auto using increasingb_sound|].
  rewrite forallb_forall in Hn. rewrite Forall_forall.
  intros x Hx E. specialize (Hn x Hx).
  apply negb_true_iff, Z.eqb_neq in Hn. contradiction.
Qed.

Lemma wf_rb_tree_of l rb_list f :
  orderedb by_record l = true -> wf (rb_tree_of l rb_list f).
Proof.
  intros Hb. split; [exact by_record_order|].
  split; [apply orderedb_sound; exact Hb|exact I].
Qed.

Lemma wf_avl_tree_of l f :
  orderedb by_record l = true -> wf (avl_tree_of l f).
Proof.
  intros Hb. split; [exact by_record_order|].
  split; [apply orderedb_sound; exact Hb|split; reflexivity].
Qed.

(** * Facts about the world and the wrapper *)

Lemma malloc_cases w :
  (exists w1, malloc w = (true, w1) /\ live w1 = live w + 1 /\
     failed w1 = failed w /\ destroyed w1 = destroyed w /\ errno w1 = errno w) \/
  (exists w1, malloc w = (false, w1) /\ live w1 = live w /\
     failed w1 = S (failed w) /\ destroyed w1 = destroyed w /\
     errno w1 = ENOMEM /\ ~ next_alloc_ok w).
Proof.
  unfold malloc, next_alloc_ok. destruct (allocs w) as [|[] rest]; simpl.
  - left. eexists. repeat split.
  - left. eexists. repeat split.
  - right. eexists. repeat split. discriminate.
Qed.

Lemma malloc_ok w : next_alloc_ok w -> fst (malloc w) = true.
Proof.
  destruct (malloc_cases w) as [(w1 & -> & _)|(w1 & _ & _ & _ & _ & _ & Hn)];
    [reflexivity|contradiction].
Qed.

Lemma with_lib_id t : with_lib t (lib t) = t.
Proof. destruct t; reflexivity. Qed.

Lemma rb_cmp_eq t :
  cmp_in_context sr_redblack_compare_item_cb (Some t) = compare_item_cb t.
Proof. reflexivity. Qed.

Lemma wf_order t : wf t -> TotalOrder (compare_item_cb t).
Proof. intros H; apply H. Qed.

Lemma wf_sorted t :
  wf t -> StronglySorted (fun x y => compare_item_cb t x y < 0) (contents t).
Proof. intros H; apply H. Qed.

Lemma wf_nonnull t x : wf t -> In x (contents t) -> x <> NULL.
Proof.
  intros (_ & (_ & Hn) & _) Hin. rewrite Forall_forall in Hn. auto.
Qed.

Lemma wf_NoDup t : wf t -> NoDup (contents t).
Proof.
  intros H. eapply sorted_NoDup; [apply (wf_order t H)|apply (wf_sorted t H)].
Qed.

Ltac unfold_lib :=
  unfold rbsearch, rbfind, rbdelete, rbopenlist, rbcloselist, rbdestroy, rbinit,
    avl_insert, avl_delete, avl_search, avl_at, avl_alloc_tree, avl_free_tree,
    with_items, with_lib.

Ltac unfold_world :=
  unfold bind, ret, free_block, free_blocks, set_errno, call_free_item_cb.

Ltac null_test H :=
  match type of H with
  | ?x <> NULL =>
      let E := fresh "E" in
      assert (E : (x =? NULL) = false) by (apply Z.eqb_neq; exact H);
      rewrite ?E
  end.

Lemma wf_avl c f l :
  TotalOrder c -> ordered c l -> wf (mkTree (AvlLib (mkAvl c f l)) c f).
Proof.
  intros Ho Hs. split; [exact Ho|]. split; [exact Hs|split; reflexivity].
Qed.

Lemma wf_rb c f r l :
  TotalOrder c -> ordered c (rb_items r) -> wf (mkTree (RedblackLib r l) c f).
Proof.
  intros Ho Hs. split; [exact Ho|]. split; [exact Hs|exact I].
Qed.

(** [sr_btree_search] is the comparator descent on the contents. *)
Lemma search_lookup t key w :
  wf t -> key <> NULL ->
  sr_btree_search (Some t) key w =
    (match lookup (compare_item_cb t) key (contents t) with
     | Some x => x
     | None => NULL
     end, Some t, w).
Proof.
  intros Hwf Hk. unfold sr_btree_search. null_test Hk.
  destruct t as [[a|r l] c f]; destruct Hwf as (Ho & Hs & Hh);
    unfold contents in *; simpl in *.
  - destruct Hh as [Hc _]. unfold avl_search. rewrite Hc.
    destruct (lookup c key (avl_items a)); reflexivity.
  - unfold rbfind. reflexivity.
Qed.

(** The outcomes of [sr_btree_insert] on a well-formed tree: an equal item
    is stored already, a node is linked, or the node cannot be allocated. *)
Lemma insert_cases t x w rc t1 w1 :
  wf t -> x <> NULL ->
  sr_btree_insert (Some t) x w = (rc, t1, w1) ->
  destroyed w1 = destroyed w /\
  ((exists s, lookup (compare_item_cb t) x (contents t) = Some s /\
      t1 = Some t /\ live w1 = live w /\
      ((rc = SR_ERR_DATA_EXISTS /\ failed w1 = failed w /\
          (is_redblack t = true -> s <> x /\ w1 = w)) \/
       (rc = SR_ERR_OK /\ is_redblack t = true /\ s = x /\ w1 = w) \/
       (rc = SR_ERR_NOMEM /\ is_redblack t = false /\
          failed w1 = S (failed w) /\ ~ next_alloc_ok w))) \/
   (lookup (compare_item_cb t) x (contents t) = None /\
      rc = SR_ERR_OK /\ failed w1 = failed w /\ live w1 = live w + 1 /\
      exists t', t1 = Some t' /\
        contents t' = link (compare_item_cb t) x (contents t) /\
        wf t' /\ cursor t' = cursor t /\
        compare_item_cb t' = compare_item_cb t /\
        free_item_cb t' = free_item_cb t /\
        is_redblack t' = is_redblack t) \/
   (lookup (compare_item_cb t) x (contents t) = None /\
      rc = SR_ERR_NOMEM /\ t1 = Some t /\ failed w1 = S (failed w) /\
      live w1 = live w /\ ~ next_alloc_ok w)).
Proof.
  intros Hwf Hx. unfold sr_btree_insert. null_test Hx.
  destruct t as [[a|r l] c f]; destruct Hwf as (Ho & Hs & Hh);
    unfold contents, cursor, is_redblack in *; simpl in *.
  - (* libavl: the node is allocated before the descent *)
    destruct Hh as [Hc Hf]. destruct a as [ac af al]; simpl in *. subst ac af.
    unfold avl_insert, bind; simpl.
    destruct (malloc_cases w) as [(wm & Hm & Hl & Hfa & Hd & He)
                                 |(wm & Hm & Hl & Hfa & Hd & He & Hno)];
      rewrite Hm; simpl.
    + destruct (lookup c x al) as [s|] eqn:Hlk; unfold_world; simpl.
      * intros [= <- <- <-]; simpl. split; [exact Hd|].
        left. exists s. repeat split; try lia.
        left. repeat split; [lia|discriminate|discriminate].
      * intros [= <- <- <-]. split; [exact Hd|].
        right; left. repeat split; try lia.
        eexists; split; [reflexivity|]. split; [reflexivity|].
        split; [|repeat split].
        apply wf_avl; auto using ordered_link.
    + rewrite He. simpl. intros [= <- <- <-]. split; [exact Hd|].
      destruct (lookup c x al) as [s|] eqn:Hlk.
      * left. exists s. repeat split; try lia.
        right; right. repeat split; auto.
      * right; right. repeat split; auto.
  - (* libredblack: the descent comes first *)
    unfold rbsearch. rewrite rb_cmp_eq. simpl.
    destruct (lookup c x (rb_items r)) as [s|] eqn:Hlk; unfold bind, ret; simpl.
    + assert (Hsn : s <> NULL).
      { destruct Hs as [_ Hn]. rewrite Forall_forall in Hn. apply Hn.
        apply (lookup_Some c x _ s Hlk). }
      null_test Hsn. destruct r as [items]; simpl in *.
      destruct (s =? x) eqn:Esx; simpl; intros [= <- <- <-]; (split; [reflexivity|]);
        left; exists s; repeat split.
      * right; left. apply Z.eqb_eq in Esx. repeat split; auto.
      * left. apply Z.eqb_neq in Esx. repeat split; auto.
    + destruct (malloc_cases w) as [(wm & Hm & Hl & Hfa & Hd & He)
                                   |(wm & Hm & Hl & Hfa & Hd & He & Hno)];
        rewrite Hm; simpl.
      * null_test Hx. rewrite Z.eqb_refl. simpl.
        intros [= <- <- <-]. split; [exact Hd|].
        right; left. repeat split; try lia.
        eexists; split; [reflexivity|]. split; [reflexivity|].
        split; [|repeat split].
        apply wf_rb; simpl; auto using ordered_link.
      * intros [= <- <- <-]. split; [exact Hd|].
        destruct r as [items]. right; right. repeat split; auto.
Qed.

(** The outcomes of [sr_btree_delete] on a well-formed tree: no node
    compares equal, or the node holding [s] is unlinked and freed.  The
    red-black build runs the destructor on the argument in both cases; the
    AVL build runs it on the stored item, and only when a node is removed. *)
Lemma delete_cases t x w t1 w1 :
  wf t -> x <> NULL ->
  sr_btree_delete (Some t) x w = (t1, w1) ->
  failed w1 = failed w /\ allocs w1 = allocs w /\
  ((lookup (compare_item_cb t) x (contents t) = None /\
      t1 = Some t /\ live w1 = live w /\
      destroyed w1 =
        destroyed w ++ (if is_redblack t && free_item_cb t then [x] else [])) \/
   (exists s, lookup (compare_item_cb t) x (contents t) = Some s /\
      live w1 = live w - 1 /\
      destroyed w1 =
        destroyed w ++
          (if free_item_cb t then [if is_redblack t then x else s] else []) /\
      exists t', t1 = Some t' /\
        contents t' = unlink (compare_item_cb t) x (contents t) /\
        wf t' /\ cursor t' = cursor t /\
        compare_item_cb t' = compare_item_cb t /\
        free_item_cb t' = free_item_cb t /\
        is_redblack t' = is_redblack t)).
Proof.
  intros Hwf Hx. unfold sr_btree_delete. null_test Hx.
  destruct t as [[a|r l] c f]; destruct Hwf as (Ho & Hs & Hh);
    unfold contents, cursor, is_redblack in *; simpl in *.
  - destruct Hh as [Hc Hf]. destruct a as [ac af al]; simpl in *. subst ac af.
    unfold avl_delete, bind; simpl.
    destruct (lookup c x al) as [s|] eqn:Hlk.
    + unfold_world; unfold with_items, with_lib; simpl.
      destruct f; simpl; intros [= <- <-]; simpl;
        (split; [reflexivity|]); (split; [reflexivity|]);
        right; exists s; (split; [reflexivity|]); (split; [reflexivity|]);
        (split; [now rewrite ?app_nil_r|]);
        (eexists; split; [reflexivity|]); (split; [reflexivity|]);
        (split; [|repeat split]); apply wf_avl; auto using ordered_unlink.
    + unfold ret. intros [= <- <-]. repeat split.
      left. repeat split. now rewrite app_nil_r.
  - unfold rbdelete. rewrite rb_cmp_eq. destruct r as [items]; simpl in *.
    destruct (lookup c x items) as [s|] eqn:Hlk.
    + unfold_world; unfold with_lib; simpl.
      destruct f; simpl; intros [= <- <-]; simpl;
        (split; [reflexivity|]); (split; [reflexivity|]);
        right; exists s; (split; [reflexivity|]); (split; [reflexivity|]);
        (split; [now rewrite ?app_nil_r|]);
        (eexists; split; [reflexivity|]); (split; [reflexivity|]);
        (split; [|repeat split]); apply wf_rb; simpl; auto using ordered_unlink.
    + unfold_world; unfold with_lib; simpl.
      destruct f; simpl; intros [= <- <-]; simpl;
        (split; [reflexivity|]); (split; [reflexivity|]);
        left; repeat split; now rewrite ?app_nil_r.
Qed.

(** [sr_btree_get_at] of the AVL build is positional access. *)
Lemma get_at_avl t index w :
  is_redblack t = false ->
  sr_btree_get_at (Some t) index w =
    (nth (N.to_nat index) (contents t) NULL, Some t, w).
Proof.
  destruct t as [[a|r l] c f]; unfold is_redblack, contents; simpl;
    [intros _|discriminate].
  unfold avl_at.
  destruct (nth_error (avl_items a) (N.to_nat index)) as [y|] eqn:Hn; simpl.
  - now rewrite (nth_error_nth _ _ NULL Hn).
  - apply nth_error_None in Hn. now rewrite nth_overflow.
Qed.

(** Index 0 in the red-black build: any open walk is closed and a new one
    is opened on the first item. *)
Lemma get_at_rb_zero c f r l w :
  next_alloc_ok w ->
  Forall (fun x => x <> NULL) (rb_items r) ->
  exists w1,
    sr_btree_get_at (Some (mkTree (RedblackLib r l) c f)) 0 w =
      (hd NULL (rb_items r),
       Some (mkTree (RedblackLib r
               match rb_items r with
               | [] => None
               | _ :: rest => Some (mkRblist (hd_error rest))
               end) c f), w1) /\
    destroyed w1 = destroyed w /\ failed w1 = failed w /\
    live w1 = live w + match rb_items r with [] => 0 | _ => 1 end
                     - match l with Some _ => 1 | None => 0 end.
Proof.
  intros Hok Hn. unfold sr_btree_get_at; simpl.
  unfold rbopenlist, rbcloselist, rbreadlist, with_lib; simpl.
  assert (Hm : forall w0, allocs w0 = allocs w -> exists wm,
             malloc w0 = (true, wm) /\ live wm = live w0 + 1 /\
             failed wm = failed w0 /\ destroyed wm = destroyed w0).
  { intros w0 Ha.
    destruct (malloc_cases w0) as [(wm & Hm & Hl & Hfa & Hd & _)
                                  |(wm & _ & _ & _ & _ & _ & Hno)].
    - exists wm. auto.
    - exfalso. apply Hno. unfold next_alloc_ok in *. now rewrite Ha. }
  destruct l as [old|]; unfold_world; simpl.
  - destruct (Hm (mkWorld (allocs w) (live w - 1) (failed w) (errno w) (destroyed w)) eq_refl)
      as (wm & Em & Hl & Hfa & Hd).
    rewrite Em; simpl in *.
    destruct (rb_items r) as [|y rest]; simpl.
    + eexists; split; [reflexivity|]. simpl. repeat split; try assumption; lia.
    + inversion Hn as [|? ? Hy _]; subst. null_test Hy. rewrite Z.eqb_refl.
      eexists; split; [reflexivity|]. repeat split; try assumption; lia.
  - destruct (Hm w eq_refl) as (wm & Em & Hl & Hfa & Hd).
    rewrite Em; simpl in *.
    destruct (rb_items r) as [|y rest]; simpl.
    + eexists; split; [reflexivity|]. simpl. repeat split; try assumption; lia.
    + inversion Hn as [|? ? Hy _]; subst. null_test Hy. rewrite Z.eqb_refl.
      eexists; split; [reflexivity|]. repeat split; try assumption; lia.
Qed.

(** A nonzero index in the red-black build, with a walk open on [k]: the
    item under the walk is returned and the walk moves on. *)
Lemma get_at_rb_next c f r pre k suf index w :
  index <> 0%N -> k <> NULL ->
  rb_items r = pre ++ k :: suf -> NoDup (rb_items r) ->
  sr_btree_get_at
    (Some (mkTree (RedblackLib r (Some (mkRblist (Some k)))) c f)) index w =
    (k, Some (mkTree (RedblackLib r (Some (mkRblist (hd_error suf)))) c f), w).
Proof.
  intros Hi Hk Hr Hnd. unfold sr_btree_get_at; simpl.
  apply N.eqb_neq in Hi. rewrite Hi. unfold bind, ret, rbreadlist; simpl.
  null_test Hk. rewrite Hr in *. now rewrite node_after_split.
Qed.

(** ** Walks *)

Lemma skipn_nth_cons (l : list ptr) k :
  (k < length l)%nat -> skipn k l = nth k l NULL :: skipn (S k) l.
Proof.
  revert k. induction l as [|x l IH]; simpl; intros k Hk; [lia|].
  destruct k as [|k]; [reflexivity|].
  cbn [skipn nth]. apply IH. lia.
Qed.

Lemma walk_avl t n :
  is_redblack t = false ->
  forall k w, (k + n <= length (contents t))%nat ->
    walk (Some t) (map N.of_nat (seq k n)) w =
      (firstn n (skipn k (contents t)), Some t, w).
Proof.
  intros Havl. induction n as [|n IH]; intros k w Hk; [reflexivity|].
  cbn [seq map walk]. unfold bind at 1. rewrite get_at_avl by assumption.
  unfold bind at 1. rewrite IH by lia. unfold ret.
  rewrite Nnat.Nat2N.id.
  rewrite (skipn_nth_cons (contents t) k) by lia. reflexivity.
Qed.

Lemma walk_rb_next c f r :
  NoDup (rb_items r) -> Forall (fun x => x <> NULL) (rb_items r) ->
  forall indices pre suf w,
    rb_items r = pre ++ suf ->
    Forall (fun i => i <> 0%N) indices ->
    (length indices <= length suf)%nat ->
    walk (Some (mkTree (RedblackLib r (Some (mkRblist (hd_error suf)))) c f))
         indices w =
      (firstn (length indices) suf,
       Some (mkTree (RedblackLib r
               (Some (mkRblist (hd_error (skipn (length indices) suf))))) c f),
       w).
Proof.
  intros Hnd Hnn. induction indices as [|i rest IH];
    intros pre suf w Hr Hi Hlen; [reflexivity|].
  destruct suf as [|k suf]; simpl in Hlen; [lia|].
  cbn [walk length firstn skipn].
  inversion Hi as [|? ? Hi0 Hi']; subst.
  assert (Hk : k <> NULL).
  { rewrite Forall_forall in Hnn. apply Hnn. rewrite Hr.
    apply in_or_app. right. now left. }
  unfold bind at 1. simpl hd_error.
  rewrite (get_at_rb_next c f r pre k suf i w Hi0 Hk Hr Hnd).
  unfold bind at 1.
  rewrite (IH (pre ++ [k]) suf w); [reflexivity| |assumption|lia].
  rewrite Hr, <- app_assoc. reflexivity.
Qed.

Lemma upto_S n : upto (S n) = 0%N :: map N.of_nat (seq 1 n).
Proof. reflexivity. Qed.

Lemma seq_nonzero n : Forall (fun i => i <> 0%N) (map N.of_nat (seq 1 n)).
Proof.
  rewrite Forall_forall. intros i Hi. apply in_map_iff in Hi.
  destruct Hi as (k & <- & Hk). apply in_seq in Hk. lia.
Qed.

(** Reading the indices 0 .. n-1 in turn yields the first [n] items in
    order, provided the red-black build can allocate its walk. *)
Lemma walk_in_order t n w :
  wf t -> (is_redblack t = true -> next_alloc_ok w) ->
  (n <= length (contents t))%nat ->
  fst (fst (walk (Some t) (upto n) w)) = firstn n (contents t).
Proof.
  intros Hwf Hok Hn.
  destruct (is_redblack t) eqn:Hrb.
  - destruct n as [|n]; [reflexivity|].
    pose proof (wf_NoDup t Hwf) as Hnd.
    destruct Hwf as (Ho & (Hs & Hnn) & _).
    destruct t as [[a|r l] c f]; [discriminate|].
    unfold contents in *; cbn [lib] in *.
    rewrite upto_S. cbn [walk]. unfold bind at 1.
    destruct (get_at_rb_zero c f r l w (Hok eq_refl) Hnn) as (w1 & -> & _).
    destruct (rb_items r) as [|y rest] eqn:Hr; simpl in Hn; [lia|].
    unfold bind at 1.
    rewrite (walk_rb_next c f r) with (pre := [y]);
      rewrite ?Hr, ?length_map, ?length_seq; auto using seq_nonzero; lia.
  - unfold upto. rewrite walk_avl by (assumption || lia). reflexivity.
Qed.

(** ** Cleanup *)

Lemma free_items_loop_run r :
  NoDup (rb_items r) -> Forall (fun x => x <> NULL) (rb_items r) ->
  forall suf pre fuel w,
    rb_items r = pre ++ suf -> (length suf < fuel)%nat ->
    free_items_loop fuel r (mkRblist (hd_error suf)) w =
      (Some (mkRblist None),
       mkWorld (allocs w) (live w) (failed w) (errno w) (destroyed w ++ suf)).
Proof.
  intros Hnd Hnn. induction suf as [|k suf IH]; intros pre fuel w Hr Hf;
    (destruct fuel as [|fuel]; [simpl in Hf; lia|]); simpl.
  - unfold ret. rewrite app_nil_r. destruct w; reflexivity.
  - assert (Hk : k <> NULL).
    { rewrite Forall_forall in Hnn. apply Hnn. rewrite Hr.
      apply in_or_app. right. now left. }
    unfold rbreadlist; simpl. null_test Hk.
    unfold bind, call_free_item_cb.
    rewrite Hr at 1. rewrite node_after_split by (rewrite <- Hr; exact Hnd).
    rewrite (IH (pre ++ [k])); simpl in *;
      [|rewrite Hr, <- app_assoc; reflexivity|lia].
    rewrite <- app_assoc. reflexivity.
Qed.

Lemma free_nodes_run f l w :
  free_nodes f l w =
    (tt, mkWorld (allocs w) (live w - Z.of_nat (length l)) (failed w) (errno w)
           (destroyed w ++ (if f then l else []))).
Proof.
  revert w. induction l as [|x l IH]; intros w.
  - simpl. unfold ret. destruct f; rewrite app_nil_r, Z.sub_0_r;
      destruct w; reflexivity.
  - cbn [free_nodes length]. rewrite Nat2Z.inj_succ.
    destruct f; unfold_world; rewrite IH; cbn [allocs live failed errno destroyed].
    + rewrite <- app_assoc. cbn [app]. do 2 f_equal. lia.
    + do 2 f_equal. lia.
Qed.

(** * Initialisation *)

(** A successful [sr_btree_init] yields an empty well-formed tree with no
    open walk, owning two blocks. *)
Lemma init_ok use_avl cmp f w rc t w' :
  TotalOrder cmp ->
  sr_btree_init use_avl (Some cmp) f true w = (rc, Some t, w') ->
  rc = SR_ERR_OK /\ wf t /\ contents t = [] /\ cursor t = None /\
  compare_item_cb t = cmp /\ free_item_cb t = f /\
  is_redblack t = negb use_avl /\ live w' = live w + 2.
Proof.
  intros Ho. unfold sr_btree_init; simpl. unfold bind at 1.
  destruct (malloc_cases w) as [(wm & Hm & Hl & _)|(wm & Hm & _)];
    rewrite Hm; simpl; [|discriminate].
  destruct use_avl; unfold avl_alloc_tree, rbinit, bind;
    (destruct (malloc_cases wm) as [(wn & Hn & Hl' & _)|(wn & Hn & _)];
     rewrite Hn; unfold_world; simpl; [|discriminate]);
    intros [= <- <- <-]; (split; [reflexivity|]);
    (split; [first [apply wf_avl|apply wf_rb]; [exact Ho|split; constructor]|]);
    cbn; repeat split; lia.
Qed.

(** * Search *)

(** C9: [sr_btree_search] changes neither the tree (its contents, its walk)
    nor the world, and it returns NULL when no stored item compares equal
    to the key (and on a NULL tree). *)
Theorem search_mutates_nothing t key w r t' w' :
  wf t ->
  sr_btree_search (Some t) key w = (r, t', w') ->
  t' = Some t /\ w' = w /\
  ((forall x, In x (contents t) -> compare_item_cb t key x <> 0) -> r = NULL) /\
  sr_btree_search None key w = (NULL, None, w).
Proof.
  intros Hwf. destruct (Z.eq_dec key NULL) as [->|Hk].
  - unfold sr_btree_search; simpl. intros [= <- <- <-]. auto.
  - rewrite search_lookup by assumption. intros [= <- <- <-].
    repeat split. intros Habs.
    destruct (lookup (compare_item_cb t) key (contents t)) as [x|] eqn:Hl;
      [|reflexivity].
    apply lookup_Some in Hl. destruct Hl as [Hin E].
    exfalso. exact (Habs x Hin E).
Qed.

Lemma search_mutates_nothing_witness :
  wf (rb_tree_of [16; 32] (Some (mkRblist (Some 32))) true) /\
  Some (rb_tree_of [16; 32] (Some (mkRblist (Some 32))) true) =
    Some (rb_tree_of [16; 32] (Some (mkRblist (Some 32))) true) /\
  world0 [false] = world0 [false] /\
  ((forall x, In x [16; 32] -> by_record 50 x <> 0) -> NULL = NULL) /\
  sr_btree_search None 50 (world0 [false]) = (NULL, None, world0 [false]).
Proof.
  split.
  - apply wf_rb_tree_of. reflexivity.
  - apply (search_mutates_nothing
             (rb_tree_of [16; 32] (Some (mkRblist (Some 32))) true) 50
             (world0 [false])).
    + apply wf_rb_tree_of. reflexivity.
    + reflexivity.
Defined.

(** A stored item is found by every key comparing equal to it. *)
Lemma search_finds t key s w :
  wf t -> key <> NULL -> In s (contents t) -> compare_item_cb t key s = 0 ->
  sr_btree_search (Some t) key w = (s, Some t, w).
Proof.
  intros Hwf Hk Hin E. rewrite search_lookup by assumption.
  pose proof (wf_order t Hwf).
  rewrite (lookup_complete (compare_item_cb t) key (contents t) s);
    auto using wf_sorted.
Qed.

(** * Insert, search, delete *)

(** C5: when [sr_btree_insert] of [x] succeeds, a search with a key equal
    to [x] returns [x]; after [sr_btree_delete] of [x], it returns NULL. *)
Theorem insert_search_delete_search t x key w w' :
  wf t -> x <> NULL -> key <> NULL -> compare_item_cb t key x = 0 ->
  (forall t1 w1, sr_btree_insert (Some t) x w = (SR_ERR_OK, t1, w1) ->
     sr_btree_search t1 key w' = (x, t1, w')) /\
  (forall t1 w1, sr_btree_delete (Some t) x w = (t1, w1) ->
     sr_btree_search t1 key w' = (NULL, t1, w')).
Proof.
  intros Hwf Hx Hk E. pose proof (wf_order t Hwf) as Ho.
  pose proof (wf_sorted t Hwf) as Hs. split.
  - intros t1 w1 Hi.
    destruct (insert_cases t x w _ _ _ Hwf Hx Hi) as
      (_ & [(s & Hl & -> & _ & [(Hrc & _)|[(_ & _ & -> & _)|(Hrc & _)]])
           |[(Hl & _ & _ & _ & t' & -> & Hc & Hwf' & _ & Hcmp & _)
            |(_ & Hrc & _)]]); try discriminate.
    + apply lookup_Some in Hl. apply search_finds; tauto.
    + apply search_finds; auto.
      * rewrite Hc. apply link_In. now left.
      * now rewrite Hcmp.
  - intros t1 w1 Hd.
    destruct (delete_cases t x w _ _ Hwf Hx Hd) as
      (_ & _ & [(Hl & -> & _)
               |(s & Hl & _ & _ & t' & -> & Hc & Hwf' & _ & Hcmp & _)]).
    + rewrite search_lookup by assumption.
      destruct (lookup (compare_item_cb t) key (contents t)) as [y|] eqn:Hy;
        [|reflexivity].
      apply lookup_Some in Hy. destruct Hy as [Hin Ey].
      exfalso. apply (lookup_None _ x _ Hs Hl y Hin).
      apply (cmp_eq_trans _ x key y); [apply cmp_eq_sym|]; assumption.
    + rewrite search_lookup by assumption.
      rewrite Hc, Hcmp. rewrite lookup_unlink; auto.
Qed.

Lemma insert_search_delete_search_witness :
  sr_btree_search (Some (avl_tree_of [16; 33; 48] true)) 34 (world0 []) =
    (33, Some (avl_tree_of [16; 33; 48] true), world0 []) /\
  sr_btree_search (Some (avl_tree_of [16; 48] true)) 34 (world0 []) =
    (NULL, Some (avl_tree_of [16; 48] true), world0 []).
Proof.
  destruct (insert_search_delete_search
              (avl_tree_of [16; 48] true) 33 34 (world0 []) (world0 []))
    as [Hins _].
  { apply wf_avl_tree_of. reflexivity. }
  { discriminate. }
  { discriminate. }
  { reflexivity. }
  destruct (insert_search_delete_search
              (avl_tree_of [16; 33; 48] true) 33 34 (world0 []) (world0 []))
    as [_ Hdel].
  { apply wf_avl_tree_of. reflexivity. }
  { discriminate. }
  { discriminate. }
  { reflexivity. }
  split.
  - exact (Hins (Some (avl_tree_of [16; 33; 48] true))
             (mkWorld [] 1 0 0 []) eq_refl).
  - exact (Hdel (Some (avl_tree_of [16; 48] true))
             (mkWorld [] (-1) 0 0 [33]) eq_refl).
Defined.

(** * Allocation failure *)

(** C7: when an allocation fails, [sr_btree_init] and [sr_btree_insert]
    return [SR_ERR_NOMEM] and nothing is left behind: [sr_btree_init]
    stores no tree and holds no block, [sr_btree_insert] leaves the tree
    as it was, holds no new block and runs no destructor. *)
Theorem allocation_failure_rolls_back t :
  wf t ->
  (forall use_avl cmp f tree_p w rc t' w',
     sr_btree_init use_avl cmp f tree_p w = (rc, t', w') ->
     alloc_failed w w' ->
     rc = SR_ERR_NOMEM /\ t' = None /\ live w' = live w /\
     destroyed w' = destroyed w) /\
  (forall x w rc t1 w1,
     sr_btree_insert (Some t) x w = (rc, t1, w1) ->
     alloc_failed w w1 ->
     rc = SR_ERR_NOMEM /\ t1 = Some t /\ live w1 = live w /\
     destroyed w1 = destroyed w).
Proof.
  intros Hwf. unfold alloc_failed. split.
  - intros use_avl cmp f tree_p w rc t' w'. unfold sr_btree_init.
    destruct cmp as [cmp|]; [|intros [= <- <- <-]; congruence].
    destruct tree_p; simpl; [|intros [= <- <- <-]; congruence].
    unfold bind at 1.
    destruct (malloc_cases w) as [(wm & Hm & Hl & Hfa & Hd & _)
                                 |(wm & Hm & Hl & Hfa & Hd & _)];
      rewrite Hm; simpl.
    + destruct use_avl; unfold avl_alloc_tree, rbinit, bind;
        (destruct (malloc_cases wm) as [(wn & Hn & Hl' & Hfa' & Hd' & _)
                                       |(wn & Hn & Hl' & Hfa' & Hd' & _)];
         rewrite Hn; unfold_world; simpl);
        intros [= <- <- <-]; simpl; intros Hne;
        try (exfalso; apply Hne; congruence);
        repeat split; try congruence; lia.
    + intros [= <- <- <-] _. repeat split; congruence.
  - intros x w rc t1 w1 Hi Hne.
    destruct (Z.eq_dec x NULL) as [->|Hx].
    { unfold sr_btree_insert in Hi; simpl in Hi.
      injection Hi as <- <- <-. congruence. }
    destruct (insert_cases t x w _ _ _ Hwf Hx Hi) as
      (Hd & [(s & _ & -> & Hl & [(_ & Hfa & _)|[(_ & _ & _ & ->)|(-> & _)]])
            |[(_ & _ & Hfa & _)|(_ & -> & -> & _ & Hl & _)]]);
      try (exfalso; apply Hne; congruence); auto.
Qed.

Lemma allocation_failure_rolls_back_witness :
  wf (rb_tree_of [16; 48] None true) /\
  (SR_ERR_NOMEM = SR_ERR_NOMEM /\ (None : option sr_btree_t) = None /\
   live (mkWorld [] 0 1 ENOMEM []) = live (world0 [true; false]) /\
   destroyed (mkWorld [] 0 1 ENOMEM []) = destroyed (world0 [true; false])) /\
  (SR_ERR_NOMEM = SR_ERR_NOMEM /\
   Some (rb_tree_of [16; 48] None true) = Some (rb_tree_of [16; 48] None true) /\
   live (mkWorld [] 0 1 ENOMEM []) = live (world0 [false]) /\
   destroyed (mkWorld [] 0 1 ENOMEM []) = destroyed (world0 [false])).
Proof.
  assert (Hwf : wf (rb_tree_of [16; 48] None true))
    by (apply wf_rb_tree_of; reflexivity).
  destruct (allocation_failure_rolls_back _ Hwf) as [Hinit Hins].
  split; [exact Hwf|]. split.
  - apply (Hinit false (Some by_record) true true (world0 [true; false])).
    + reflexivity.
    + unfold alloc_failed. simpl. discriminate.
  - apply (Hins 32 (world0 [false])).
    + reflexivity.
    + unfold alloc_failed. simpl. discriminate.
Defined.

(** * Duplicates *)

(** Inserting an item whose key is stored already changes nothing in the
    tree, keeps every block and runs no destructor.  With a pointer other
    than the stored one the result is [SR_ERR_DATA_EXISTS], except that
    libavl, which allocates the node before looking for a duplicate,
    reports a failed allocation first. *)
Lemma insert_duplicate_no_mutation t x s w rc t1 w1 :
  wf t -> x <> NULL -> In s (contents t) -> compare_item_cb t x s = 0 ->
  sr_btree_insert (Some t) x w = (rc, t1, w1) ->
  t1 = Some t /\ live w1 = live w /\ destroyed w1 = destroyed w /\
  (x <> s -> is_redblack t = true \/ next_alloc_ok w ->
   rc = SR_ERR_DATA_EXISTS) /\
  (is_redblack t = false -> next_alloc_ok w -> rc = SR_ERR_DATA_EXISTS).
Proof.
  intros Hwf Hx Hin E Hi. pose proof (wf_order t Hwf) as Ho.
  assert (Hl : lookup (compare_item_cb t) x (contents t) = Some s)
    by (apply lookup_complete; auto using wf_sorted).
  destruct (insert_cases t x w _ _ _ Hwf Hx Hi) as
    (Hd & [(s' & Hl' & -> & Hlive & Hrc)|[(Hl' & _)|(Hl' & _)]]);
    try congruence.
  assert (s' = s) by congruence. subst s'.
  repeat split; auto.
  - intros Hne Hor.
    destruct Hrc as [(-> & _)|[(_ & _ & <- & _)|(_ & Hrb & _ & Hno)]];
      [reflexivity|congruence|].
    destruct Hor; [congruence|contradiction].
  - intros Hrb Hok.
    destruct Hrc as [(-> & _)|[(_ & Hrb' & _)|(_ & _ & _ & Hno)]];
      [reflexivity|congruence|contradiction].
Qed.

(** C4, red-black build: inserting the very pointer that is stored is
    answered [SR_ERR_OK], not [SR_ERR_DATA_EXISTS]: [rbsearch] returns the
    stored pointer, which the wrapper cannot tell from a fresh insertion.
    Nothing is mutated. *)
Theorem rb_insert_same_pointer_ok t x w :
  wf t -> is_redblack t = true -> In x (contents t) ->
  sr_btree_insert (Some t) x w = (SR_ERR_OK, Some t, w).
Proof.
  intros Hwf Hrb Hin. pose proof (wf_order t Hwf) as Ho.
  assert (Hx : x <> NULL) by (eapply wf_nonnull; eauto).
  assert (Hl : lookup (compare_item_cb t) x (contents t) = Some x).
  { apply lookup_complete; auto using wf_sorted. apply cmp_refl. }
  destruct (sr_btree_insert (Some t) x w) as [[rc t1] w1] eqn:Hi.
  destruct (insert_cases t x w _ _ _ Hwf Hx Hi) as
    (Hd & [(s' & Hl' & -> & Hlive & Hrc)|[(Hl' & _)|(Hl' & _)]]);
    try congruence.
  assert (s' = x) by congruence. subst s'.
  destruct Hrc as [(_ & _ & Hne)|[(-> & _ & _ & ->)|(_ & Hrb' & _)]];
    [|reflexivity|congruence].
  destruct (Hne Hrb) as [Hne' _]. congruence.
Qed.

Lemma rb_insert_same_pointer_ok_witness :
  sr_btree_insert (Some (rb_tree_of [16; 32] None true)) 16 (world0 []) =
    (SR_ERR_OK, Some (rb_tree_of [16; 32] None true), world0 []).
Proof.
  apply (rb_insert_same_pointer_ok (rb_tree_of [16; 32] None true) 16 (world0 [])).
  - apply wf_rb_tree_of. reflexivity.
  - reflexivity.
  - simpl. left. reflexivity.
Defined.

(** The AVL build answers the same call with [SR_ERR_DATA_EXISTS]. *)
Lemma avl_insert_same_pointer_exists :
  fst (fst (sr_btree_insert (Some (avl_tree_of [16; 32] true)) 16 (world0 []))) =
    SR_ERR_DATA_EXISTS.
Proof. reflexivity. Qed.

(** * Delete *)

(** Deleting a key that no stored item equals leaves the tree as it is;
    the destructor runs (on the argument) in the red-black build only. *)
Lemma delete_absent t x w t1 w1 :
  wf t -> x <> NULL ->
  (forall s, In s (contents t) -> compare_item_cb t x s <> 0) ->
  sr_btree_delete (Some t) x w = (t1, w1) ->
  t1 = Some t /\ live w1 = live w /\
  destroyed w1 =
    destroyed w ++ (if is_redblack t && free_item_cb t then [x] else []).
Proof.
  intros Hwf Hx Habs Hd.
  destruct (delete_cases t x w _ _ Hwf Hx Hd) as
    (_ & _ & [(Hl & -> & Hlive & Hdes)|(s & Hl & _)]); [auto|].
  apply lookup_Some in Hl. destruct Hl as [Hin E].
  exfalso. exact (Habs s Hin E).
Qed.

(** C2, red-black build with a destructor: deleting a key that no stored
    item equals leaves the tree unchanged but runs the destructor on the
    argument. *)
Theorem rb_delete_absent_runs_destructor t x w :
  wf t -> is_redblack t = true -> free_item_cb t = true -> x <> NULL ->
  (forall s, In s (contents t) -> compare_item_cb t x s <> 0) ->
  exists w1, sr_btree_delete (Some t) x w = (Some t, w1) /\
             destroyed w1 = destroyed w ++ [x].
Proof.
  intros Hwf Hrb Hf Hx Habs.
  destruct (sr_btree_delete (Some t) x w) as [t1 w1] eqn:Hd.
  destruct (delete_absent t x w _ _ Hwf Hx Habs Hd) as (-> & _ & Hdes).
  rewrite Hrb, Hf in Hdes. exists w1. auto.
Qed.

Lemma rb_delete_absent_runs_destructor_witness :
  exists w1,
    sr_btree_delete (Some (rb_tree_of [16; 32] None true)) 48 (world0 []) =
      (Some (rb_tree_of [16; 32] None true), w1) /\
    destroyed w1 = destroyed (world0 []) ++ [48].
Proof.
  apply (rb_delete_absent_runs_destructor
           (rb_tree_of [16; 32] None true) 48 (world0 [])).
  - apply wf_rb_tree_of. reflexivity.
  - reflexivity.
  - reflexivity.
  - discriminate.
  - intros s [<-|[<-|[]]]; discriminate.
Defined.

(** The AVL build does nothing at all in that case. *)
Lemma avl_delete_absent_noop t x w :
  wf t -> is_redblack t = false -> x <> NULL ->
  (forall s, In s (contents t) -> compare_item_cb t x s <> 0) ->
  exists w1, sr_btree_delete (Some t) x w = (Some t, w1) /\
             destroyed w1 = destroyed w /\ live w1 = live w.
Proof.
  intros Hwf Hrb Hx Habs.
  destruct (sr_btree_delete (Some t) x w) as [t1 w1] eqn:Hd.
  destruct (delete_absent t x w _ _ Hwf Hx Habs Hd) as (-> & Hl & Hdes).
  rewrite Hrb in Hdes. simpl in Hdes. rewrite app_nil_r in Hdes.
  exists w1. auto.
Qed.

(** Deleting by a key that a stored item [s] equals unlinks and frees the
    node of [s]; the destructor, if any, runs once: on the argument in the
    red-black build, on [s] in the AVL build. *)
Lemma delete_present t x s w t1 w1 :
  wf t -> x <> NULL -> In s (contents t) -> compare_item_cb t x s = 0 ->
  sr_btree_delete (Some t) x w = (t1, w1) ->
  exists t', t1 = Some t' /\ wf t' /\
    contents t' = unlink (compare_item_cb t) x (contents t) /\
    ~ In s (contents t') /\
    (forall y, In y (contents t') -> In y (contents t)) /\
    length (contents t) = S (length (contents t')) /\
    cursor t' = cursor t /\
    live w1 = live w - 1 /\
    destroyed w1 =
      destroyed w ++
        (if free_item_cb t then [if is_redblack t then x else s] else []).
Proof.
  intros Hwf Hx Hin E Hd. pose proof (wf_order t Hwf) as Ho.
  pose proof (wf_sorted t Hwf) as Hs.
  assert (Hl : lookup (compare_item_cb t) x (contents t) = Some s)
    by (apply lookup_complete; auto).
  destruct (delete_cases t x w _ _ Hwf Hx Hd) as
    (_ & _ & [(Hl' & _)|(s' & Hl' & Hlive & Hdes & t' & -> & Hc & Hwf' & Hcur & _)]);
    [congruence|].
  assert (s' = s) by congruence. subst s'.
  exists t'. split; [reflexivity|]. split; [exact Hwf'|].
  split; [exact Hc|]. rewrite Hc. split; [|split; [|split]].
  - intros Hin'. exact (unlink_not_equal _ x _ s Hs Hin' E).
  - intros y. apply unlink_sub.
  - destruct (unlink_present _ x _ s Hl) as (pre & suf & -> & ->).
    rewrite !length_app. simpl. lia.
  - auto.
Qed.

(** C6, red-black build with a destructor: deleting by a key that a stored
    item [s] equals unlinks and frees the node of [s], but the destructor
    runs on the argument [x], not on [s]. *)
Theorem rb_delete_destroys_argument t x s w :
  wf t -> is_redblack t = true -> free_item_cb t = true -> x <> NULL ->
  In s (contents t) -> compare_item_cb t x s = 0 ->
  exists t1 w1,
    sr_btree_delete (Some t) x w = (Some t1, w1) /\
    ~ In s (contents t1) /\ live w1 = live w - 1 /\
    destroyed w1 = destroyed w ++ [x].
Proof.
  intros Hwf Hrb Hf Hx Hin E.
  destruct (sr_btree_delete (Some t) x w) as [t1 w1] eqn:Hd.
  destruct (delete_present t x s w _ _ Hwf Hx Hin E Hd) as
    (t' & -> & _ & _ & Hnot & _ & _ & _ & Hlive & Hdes).
  rewrite Hrb, Hf in Hdes. exists t', w1. auto.
Qed.

Lemma rb_delete_destroys_argument_witness :
  exists t1 w1,
    sr_btree_delete (Some (rb_tree_of [16; 32] None true)) 17 (world0 []) =
      (Some t1, w1) /\
    ~ In 16 (contents t1) /\ live w1 = live (world0 []) - 1 /\
    destroyed w1 = destroyed (world0 []) ++ [17].
Proof.
  apply (rb_delete_destroys_argument
           (rb_tree_of [16; 32] None true) 17 16 (world0 [])).
  - apply wf_rb_tree_of. reflexivity.
  - reflexivity.
  - reflexivity.
  - discriminate.
  - simpl. left. reflexivity.
  - reflexivity.
Defined.

(** The AVL build runs the destructor on the stored item. *)
Lemma avl_delete_destroys_stored t x s w :
  wf t -> is_redblack t = false -> free_item_cb t = true -> x <> NULL ->
  In s (contents t) -> compare_item_cb t x s = 0 ->
  exists t1 w1,
    sr_btree_delete (Some t) x w = (Some t1, w1) /\
    ~ In s (contents t1) /\ live w1 = live w - 1 /\
    destroyed w1 = destroyed w ++ [s].
Proof.
  intros Hwf Hrb Hf Hx Hin E.
  destruct (sr_btree_delete (Some t) x w) as [t1 w1] eqn:Hd.
  destruct (delete_present t x s w _ _ Hwf Hx Hin E Hd) as
    (t' & -> & _ & _ & Hnot & _ & _ & _ & Hlive & Hdes).
  rewrite Hrb, Hf in Hdes. exists t', w1. auto.
Qed.

(** * Reading by index *)

(** Index 0 returns the first item of the contents, whatever walk was
    open before, provided the red-black build can allocate the new walk. *)
Lemma get_at_zero_first t w :
  wf t -> (is_redblack t = true -> next_alloc_ok w) ->
  fst (fst (sr_btree_get_at (Some t) 0 w)) = hd NULL (contents t).
Proof.
  intros Hwf Hok. destruct (is_redblack t) eqn:Hrb.
  - destruct Hwf as (_ & (_ & Hnn) & _).
    destruct t as [[a|r l] c f]; [discriminate|].
    unfold contents in *; cbn [lib] in *.
    destruct (get_at_rb_zero c f r l w (Hok eq_refl) Hnn) as (w1 & -> & _).
    reflexivity.
  - rewrite get_at_avl by assumption. simpl.
    destruct (contents t); reflexivity.
Qed.

(** C1 (amended): on a tree holding n items, [sr_btree_get_at] called with
    the indices 0, 1, ..., n-1 in turn returns the stored items in strictly
    increasing comparator order, each once and none missing, provided that
    in the red-black build the walk opened by index 0 can be allocated. *)
Theorem get_at_walk_in_order t w its t1 w1 :
  wf t -> (is_redblack t = true -> next_alloc_ok w) ->
  walk (Some t) (upto (length (contents t))) w = (its, t1, w1) ->
  its = contents t /\
  StronglySorted (fun x y => compare_item_cb t x y < 0) its /\
  NoDup its.
Proof.
  intros Hwf Hok Hw.
  assert (E : its = contents t).
  { pose proof (walk_in_order t (length (contents t)) w Hwf Hok (le_n _)) as Hf.
    rewrite Hw, firstn_all in Hf. exact Hf. }
  subst its. auto using wf_sorted, wf_NoDup.
Qed.

Lemma get_at_walk_in_order_witness :
  [16; 32; 48] = contents (rb_tree_of [16; 32; 48] (Some (mkRblist (Some 48))) true) /\
  StronglySorted (fun x y => by_record x y < 0) [16; 32; 48] /\
  NoDup [16; 32; 48].
Proof.
  apply (get_at_walk_in_order
           (rb_tree_of [16; 32; 48] (Some (mkRblist (Some 48))) true)
           (world0 [true]) [16; 32; 48]
           (Some (rb_tree_of [16; 32; 48] (Some (mkRblist None)) true))
           (mkWorld [] 0 0 0 [])).
  - apply wf_rb_tree_of. reflexivity.
  - intros _. reflexivity.
  - reflexivity.
Defined.

(** C1 as stated fails in the red-black build when the walk cannot be
    allocated: every read returns NULL. *)
Lemma get_at_walk_counterexample :
  wf (rb_tree_of [16; 32] None true) /\
  fst (fst (walk (Some (rb_tree_of [16; 32] None true))
              (upto (length (contents (rb_tree_of [16; 32] None true))))
              (world0 [false]))) = [NULL; NULL] /\
  contents (rb_tree_of [16; 32] None true) = [16; 32].
Proof.
  split; [apply wf_rb_tree_of; reflexivity|]. split; reflexivity.
Qed.

(** Index 0, in full: the first item is returned, the walk that was open
    is freed and the tree is left with a new walk that stands on the second
    item (none on an empty tree, none in the AVL build). *)
Lemma get_at_zero_full t w :
  wf t -> (is_redblack t = true -> next_alloc_ok w) ->
  exists w1,
    sr_btree_get_at (Some t) 0 w =
      (hd NULL (contents t), Some (with_cursor t (fresh_walk t)), w1) /\
    live w1 = live w + walk_blocks (fresh_walk t) - walk_blocks (cursor t) /\
    destroyed w1 = destroyed w /\ failed w1 = failed w.
Proof.
  intros Hwf Hok. destruct (is_redblack t) eqn:Hrb.
  - destruct Hwf as (_ & (_ & Hnn) & _).
    destruct t as [[a|r l] c f]; [discriminate|].
    unfold fresh_walk, cursor, with_cursor, contents in *;
      cbn [lib is_redblack] in *.
    destruct (get_at_rb_zero c f r l w (Hok eq_refl) Hnn) as (w1 & Hg & Hd & Hf & Hl).
    exists w1. split; [exact Hg|]. split; [|auto].
    rewrite Hl. destruct (rb_items r); destruct l; reflexivity.
  - rewrite get_at_avl by assumption. exists w.
    unfold fresh_walk, cursor, with_cursor. rewrite Hrb.
    destruct t as [[a|r l] c f]; [|discriminate]. cbn [lib walk_blocks].
    split; [|split; [lia|auto]].
    unfold contents; cbn [lib]. destruct (avl_items a); reflexivity.
Qed.

(** C10: in the red-black build a nonzero index is not looked at.  Any
    nonzero index gives the very call that index 1 gives; with no walk open
    it returns NULL and leaves tree and world untouched; a call that
    returns NULL leaves no walk open.  Index 0 frees the walk that was open,
    opens a new one, returns the first item and leaves the walk on the
    second; the calls that follow it, whatever their nonzero indices,
    return the next items in order and move the walk on by one item each,
    without touching anything else. *)
Theorem rb_get_at_ignores_nonzero_index t r l index w :
  wf t -> lib t = RedblackLib r l -> index <> 0%N ->
  sr_btree_get_at (Some t) index w = sr_btree_get_at (Some t) 1 w /\
  (l = None -> sr_btree_get_at (Some t) index w = (NULL, Some t, w)) /\
  (forall i w0 t' w', sr_btree_get_at (Some t) i w0 = (NULL, Some t', w') ->
     cursor t' = None) /\
  (forall w0, next_alloc_ok w0 ->
     exists w1,
       sr_btree_get_at (Some t) 0 w0 =
         (hd NULL (rb_items r), Some (with_cursor t (fresh_walk t)), w1) /\
       live w1 = live w0 + walk_blocks (fresh_walk t) - walk_blocks l /\
       destroyed w1 = destroyed w0 /\ failed w1 = failed w0) /\
  (forall w0 indices, next_alloc_ok w0 ->
     Forall (fun i => i <> 0%N) indices ->
     (length indices < length (rb_items r))%nat ->
     exists w1,
       walk (Some t) (0%N :: indices) w0 =
         (firstn (S (length indices)) (rb_items r),
          Some (with_cursor t
                  (Some (mkRblist
                           (hd_error (skipn (S (length indices)) (rb_items r)))))),
          w1) /\
       live w1 = live w0 + 1 - walk_blocks l /\
       destroyed w1 = destroyed w0 /\ failed w1 = failed w0).
Proof.
  intros Hwf Hlib Hi. destruct t as [lb c f]; simpl in Hlib; subst lb.
  assert (E : (index =? 0)%N = false) by (apply N.eqb_neq; exact Hi).
  split; [|split; [|split; [|split]]].
  - unfold sr_btree_get_at; simpl. rewrite E. reflexivity.
  - intros ->. unfold sr_btree_get_at; simpl. rewrite E. reflexivity.
  - intros i w0 t' w'. unfold sr_btree_get_at; simpl. unfold bind at 1.
    destruct ((if (i =? 0)%N
               then (match l with
                     | Some old => rbcloselist old
                     | None => ret tt
                     end ;; rbopenlist r)
               else ret l) w0) as [[rl|] wa].
    + destruct (rbreadlist rl r) as [it rl']; simpl.
      destruct (it =? NULL) eqn:En; unfold bind, ret, rbcloselist; unfold_world.
      * intros [= _ <- _]. reflexivity.
      * intros [= -> _ _]. discriminate.
    + unfold ret. intros [= <- _]. reflexivity.
  - intros w0 Hok.
    destruct (get_at_zero_full (mkTree (RedblackLib r l) c f) w0 Hwf
                (fun _ => Hok)) as (w1 & Hg & Hl & Hd & Hf).
    exists w1. auto.
  - intros w0 indices Hok Hnz Hlen.
    pose proof (wf_NoDup _ Hwf) as Hnd.
    destruct Hwf as (_ & (_ & Hnn) & _).
    unfold contents in Hnd, Hnn; cbn [lib] in Hnd, Hnn.
    destruct (get_at_rb_zero c f r l w0 Hok Hnn) as (w1 & Hg & Hd & Hf & Hl).
    destruct (rb_items r) as [|y rest] eqn:Hr; [simpl in Hlen; lia|].
    rewrite <- Hr in Hnd, Hnn.
    exists w1. cbn [walk]. unfold bind at 1. rewrite Hg. unfold bind at 1.
    rewrite (walk_rb_next c f r Hnd Hnn indices [y] rest w1);
      [|rewrite Hr; reflexivity|exact Hnz|simpl in Hlen; lia].
    unfold ret, with_cursor, with_lib; cbn [lib compare_item_cb free_item_cb].
    split; [reflexivity|]. split; [|auto].
    rewrite Hl. destruct l; reflexivity.
Qed.

Lemma rb_get_at_ignores_nonzero_index_witness :
  sr_btree_get_at (Some (rb_tree_of [16; 32; 48] (Some (mkRblist (Some 32))) true))
                  7 (world0 []) =
    sr_btree_get_at (Some (rb_tree_of [16; 32; 48] (Some (mkRblist (Some 32))) true))
                  1 (world0 []) /\
  (Some (mkRblist (Some 32)) = None ->
   sr_btree_get_at (Some (rb_tree_of [16; 32; 48] (Some (mkRblist (Some 32))) true))
                   7 (world0 []) =
     (NULL, Some (rb_tree_of [16; 32; 48] (Some (mkRblist (Some 32))) true),
      world0 [])) /\
  (forall i w0 t' w',
     sr_btree_get_at (Some (rb_tree_of [16; 32; 48] (Some (mkRblist (Some 32))) true))
                     i w0 = (NULL, Some t', w') ->
     cursor t' = None) /\
  (forall w0, next_alloc_ok w0 ->
     exists w1,
       sr_btree_get_at
         (Some (rb_tree_of [16; 32; 48] (Some (mkRblist (Some 32))) true)) 0 w0 =
         (16, Some (rb_tree_of [16; 32; 48] (Some (mkRblist (Some 32))) true), w1) /\
       live w1 = live w0 + 1 - 1 /\
       destroyed w1 = destroyed w0 /\ failed w1 = failed w0) /\
  (forall w0 indices, next_alloc_ok w0 ->
     Forall (fun i => i <> 0%N) indices ->
     (length indices < 3)%nat ->
     exists w1,
       walk (Some (rb_tree_of [16; 32; 48] (Some (mkRblist (Some 32))) true))
            (0%N :: indices) w0 =
         (firstn (S (length indices)) [16; 32; 48],
          Some (rb_tree_of [16; 32; 48]
                  (Some (mkRblist
                           (hd_error (skipn (S (length indices)) [16; 32; 48]))))
                  true),
          w1) /\
       live w1 = live w0 + 1 - 1 /\
       destroyed w1 = destroyed w0 /\ failed w1 = failed w0).
Proof.
  apply (rb_get_at_ignores_nonzero_index
           (rb_tree_of [16; 32; 48] (Some (mkRblist (Some 32))) true)
           (mkRbtree [16; 32; 48]) (Some (mkRblist (Some 32))) 7%N (world0 [])).
  - apply wf_rb_tree_of. reflexivity.
  - reflexivity.
  - discriminate.
Defined.

(** A concrete run: after index 0 the indices 9 and 5 read the second and
    the third item. *)
Example rb_get_at_any_indices :
  walk (Some (rb_tree_of [16; 32; 48] None true)) [0; 9; 5; 2]%N (world0 []) =
    ([16; 32; 48; NULL], Some (rb_tree_of [16; 32; 48] None true),
     mkWorld [] 0 0 0 []).
Proof. reflexivity. Qed.

(** * Mutation during a walk *)

(** C3 (amended): [sr_btree_insert] and [sr_btree_delete] do not touch the
    walk: whatever walk was open stays open, as it was (the AVL build has
    none).  On the tree they leave, the next call with index 0 frees that
    walk, opens a new one, returns the first item of the current contents
    and leaves the new walk on the second item, provided the red-black
    build can allocate the walk. *)
Theorem mutation_leaves_cursor_open t x y w :
  wf t -> x <> NULL -> y <> NULL ->
  (exists rc t1 w1,
     sr_btree_insert (Some t) x w = (rc, Some t1, w1) /\
     cursor t1 = cursor t /\
     forall w', (is_redblack t1 = true -> next_alloc_ok w') ->
       exists w2,
         sr_btree_get_at (Some t1) 0 w' =
           (hd NULL (contents t1), Some (with_cursor t1 (fresh_walk t1)), w2) /\
         live w2 = live w' + walk_blocks (fresh_walk t1) - walk_blocks (cursor t) /\
         destroyed w2 = destroyed w') /\
  (exists t1 w1,
     sr_btree_delete (Some t) y w = (Some t1, w1) /\
     cursor t1 = cursor t /\
     forall w', (is_redblack t1 = true -> next_alloc_ok w') ->
       exists w2,
         sr_btree_get_at (Some t1) 0 w' =
           (hd NULL (contents t1), Some (with_cursor t1 (fresh_walk t1)), w2) /\
         live w2 = live w' + walk_blocks (fresh_walk t1) - walk_blocks (cursor t) /\
         destroyed w2 = destroyed w').
Proof.
  intros Hwf Hx Hy.
  assert (Restart : forall t1, wf t1 -> cursor t1 = cursor t ->
    forall w', (is_redblack t1 = true -> next_alloc_ok w') ->
      exists w2,
        sr_btree_get_at (Some t1) 0 w' =
          (hd NULL (contents t1), Some (with_cursor t1 (fresh_walk t1)), w2) /\
        live w2 = live w' + walk_blocks (fresh_walk t1) - walk_blocks (cursor t) /\
        destroyed w2 = destroyed w').
  { intros t1 Hwf1 Hcur w' Hok.
    destruct (get_at_zero_full t1 w' Hwf1 Hok) as (w2 & Hg & Hl & Hd & _).
    exists w2. rewrite <- Hcur. auto. }
  split.
  - destruct (sr_btree_insert (Some t) x w) as [[rc t1] w1] eqn:Hi.
    destruct (insert_cases t x w _ _ _ Hwf Hx Hi) as
      (_ & [(s & _ & -> & _)
           |[(_ & _ & _ & _ & t' & -> & _ & Hwf' & Hcur & _)
            |(_ & _ & -> & _)]]).
    + exists rc, t, w1. auto.
    + exists rc, t', w1. auto.
    + exists rc, t, w1. auto.
  - destruct (sr_btree_delete (Some t) y w) as [t1 w1] eqn:Hd.
    destruct (delete_cases t y w _ _ Hwf Hy Hd) as
      (_ & _ & [(_ & -> & _)
               |(s & _ & _ & _ & t' & -> & _ & Hwf' & Hcur & _)]).
    + exists t, w1. auto.
    + exists t', w1. auto.
Qed.

Lemma mutation_leaves_cursor_open_witness :
  (exists rc t1 w1,
     sr_btree_insert (Some (rb_tree_of [16; 32] (Some (mkRblist (Some 32))) true))
                     48 (world0 []) = (rc, Some t1, w1) /\
     cursor t1 = Some (mkRblist (Some 32)) /\
     forall w', (is_redblack t1 = true -> next_alloc_ok w') ->
       exists w2,
         sr_btree_get_at (Some t1) 0 w' =
           (hd NULL (contents t1), Some (with_cursor t1 (fresh_walk t1)), w2) /\
         live w2 = live w' + walk_blocks (fresh_walk t1) - 1 /\
         destroyed w2 = destroyed w') /\
  (exists t1 w1,
     sr_btree_delete (Some (rb_tree_of [16; 32] (Some (mkRblist (Some 32))) true))
                     16 (world0 []) = (Some t1, w1) /\
     cursor t1 = Some (mkRblist (Some 32)) /\
     forall w', (is_redblack t1 = true -> next_alloc_ok w') ->
       exists w2,
         sr_btree_get_at (Some t1) 0 w' =
           (hd NULL (contents t1), Some (with_cursor t1 (fresh_walk t1)), w2) /\
         live w2 = live w' + walk_blocks (fresh_walk t1) - 1 /\
         destroyed w2 = destroyed w').
Proof.
  apply (mutation_leaves_cursor_open
           (rb_tree_of [16; 32] (Some (mkRblist (Some 32))) true) 48 16
           (world0 [])).
  - apply wf_rb_tree_of. reflexivity.
  - discriminate.
  - discriminate.
Defined.

(** The restart after a mutation, run: the walk left open on 32 is freed,
    the new walk returns 16 and stands on 32 (after the insertion of 48),
    respectively returns 32 and stands past the end (after the deletion of
    16). *)
Example restart_after_mutation :
  sr_btree_get_at (Some (rb_tree_of [16; 32; 48] (Some (mkRblist (Some 32))) true))
                  0 (mkWorld [] 2 0 0 []) =
    (16, Some (rb_tree_of [16; 32; 48] (Some (mkRblist (Some 32))) true),
     mkWorld [] 2 0 0 []) /\
  sr_btree_get_at (Some (rb_tree_of [32] (Some (mkRblist (Some 32))) true))
                  0 (mkWorld [] 0 0 0 [16]) =
    (32, Some (rb_tree_of [32] (Some (mkRblist None)) true),
     mkWorld [] 0 0 0 [16]).
Proof. split; reflexivity. Qed.

(** C3 as stated fails: a walk opened by index 0 is still open after an
    insertion and after a deletion. *)
Lemma mutation_closes_cursor_counterexample :
  sr_btree_get_at (Some (rb_tree_of [16; 32] None false)) 0 (world0 []) =
    (16, Some (rb_tree_of [16; 32] (Some (mkRblist (Some 32))) false),
     mkWorld [] 1 0 0 []) /\
  sr_btree_insert (Some (rb_tree_of [16; 32] (Some (mkRblist (Some 32))) false))
                  48 (mkWorld [] 1 0 0 []) =
    (SR_ERR_OK,
     Some (rb_tree_of [16; 32; 48] (Some (mkRblist (Some 32))) false),
     mkWorld [] 2 0 0 []) /\
  sr_btree_delete (Some (rb_tree_of [16; 32] (Some (mkRblist (Some 32))) false))
                  16 (mkWorld [] 1 0 0 []) =
    (Some (rb_tree_of [32] (Some (mkRblist (Some 32))) false),
     mkWorld [] 0 0 0 []) /\
  cursor (rb_tree_of [16; 32; 48] (Some (mkRblist (Some 32))) false) <> None /\
  cursor (rb_tree_of [32] (Some (mkRblist (Some 32))) false) <> None.
Proof.
  repeat split; try reflexivity; discriminate.
Qed.

(** * Cleanup *)

(** C8 (amended): [sr_btree_cleanup] does nothing on a NULL tree.  On a
    tree it returns, having run the registered destructor once on each
    stored item (and none when no destructor is registered) and having
    freed every block of the tree, provided that in the red-black build
    with a destructor the walk over the items can be allocated. *)
Theorem cleanup_destroys_each_item t fuel w :
  wf t -> (length (contents t) < fuel)%nat ->
  (is_redblack t = true -> free_item_cb t = true -> next_alloc_ok w) ->
  sr_btree_cleanup fuel None w = (Some tt, w) /\
  exists w',
    sr_btree_cleanup fuel (Some t) w = (Some tt, w') /\
    destroyed w' = destroyed w ++ (if free_item_cb t then contents t else []) /\
    NoDup (contents t) /\
    live w' = live w - blocks_owned t.
Proof.
  intros Hwf Hfuel Hok. split; [reflexivity|].
  pose proof (wf_NoDup t Hwf) as Hnd.
  destruct Hwf as (Ho & (Hs & Hnn) & Hh).
  destruct t as [[a|r l] c f];
    unfold blocks_owned, contents, cursor in *; cbn [lib free_item_cb] in *.
  - destruct Hh as [_ Hf]. unfold sr_btree_cleanup; cbn [lib].
    unfold avl_free_tree, bind. rewrite free_nodes_run. unfold_world.
    cbn [allocs live failed errno destroyed]. rewrite Hf.
    eexists; split; [reflexivity|]. cbn [destroyed live].
    repeat split; auto. lia.
  - unfold sr_btree_cleanup; cbn [lib free_item_cb].
    destruct f.
    + unfold rbopenlist. unfold bind at 1. unfold bind at 1. unfold bind at 1.
      destruct (malloc_cases w) as [(wm & Hm & Hl & Hfa & Hd & _)
                                   |(wm & _ & _ & _ & _ & _ & Hno)];
        [|exfalso; apply Hno; apply Hok; reflexivity].
      rewrite Hm. unfold ret at 1. unfold bind at 1.
      rewrite (free_items_loop_run r Hnd Hnn (rb_items r) [] fuel wm eq_refl Hfuel).
      unfold rbcloselist, rbdestroy. unfold_world.
      cbn [allocs live failed errno destroyed].
      destruct l as [rl|]; cbn [allocs live failed errno destroyed];
        (eexists; split; [reflexivity|]); cbn [destroyed live];
        rewrite Hd, Hl; repeat split; auto; lia.
    + unfold rbcloselist, rbdestroy. unfold_world.
      destruct l as [rl|]; cbn [allocs live failed errno destroyed];
        (eexists; split; [reflexivity|]); cbn [destroyed live];
        rewrite app_nil_r; repeat split; auto; lia.
Qed.

Lemma cleanup_destroys_each_item_witness :
  sr_btree_cleanup 3 None (world0 []) = (Some tt, world0 []) /\
  exists w',
    sr_btree_cleanup 3
      (Some (rb_tree_of [16; 32] (Some (mkRblist (Some 32))) true))
      (world0 []) = (Some tt, w') /\
    destroyed w' = destroyed (world0 []) ++ [16; 32] /\
    NoDup [16; 32] /\
    live w' = live (world0 []) - 5.
Proof.
  apply (cleanup_destroys_each_item
           (rb_tree_of [16; 32] (Some (mkRblist (Some 32))) true) 3 (world0 [])).
  - apply wf_rb_tree_of. reflexivity.
  - simpl. lia.
  - intros _ _. reflexivity.
Defined.

(** C8 as stated fails in the red-black build when the walk over the items
    cannot be allocated: the tree is freed and no destructor has run. *)
Lemma cleanup_counterexample :
  wf (rb_tree_of [16; 32] None true) /\
  sr_btree_cleanup 3 (Some (rb_tree_of [16; 32] None true)) (world0 [false]) =
    (Some tt, mkWorld [] (-4) 1 ENOMEM []) /\
  contents (rb_tree_of [16; 32] None true) = [16; 32].
Proof.
  split; [apply wf_rb_tree_of; reflexivity|]. split; reflexivity.
Qed.

(** * The invariant along the operations *)

Lemma get_at_keeps_contents t index w it t1 w1 :
  wf t -> sr_btree_get_at (Some t) index w = (it, t1, w1) ->
  exists t', t1 = Some t' /\ wf t' /\ contents t' = contents t /\
    destroyed w1 = destroyed w.
Proof.
  intros Hwf. destruct (is_redblack t) eqn:Hrb.
  - destruct t as [[a|r l] c f]; [discriminate|].
    unfold sr_btree_get_at; cbn [lib]. unfold bind at 1.
    assert (Hpre : forall rl wa,
      (if (index =? 0)%N
       then (match l with
             | Some old => rbcloselist old
             | None => ret tt
             end ;; rbopenlist r)
       else ret l) w = (rl, wa) -> destroyed wa = destroyed w).
    { intros rl wa. destruct (index =? 0)%N.
      - unfold rbopenlist, rbcloselist, bind.
        destruct l; unfold_world;
          match goal with
          | |- context [malloc ?w0] =>
              destruct (malloc_cases w0) as [(wm & -> & _ & _ & Hd & _)
                                            |(wm & -> & _ & _ & Hd & _)]
          end; intros [= <- <-]; exact Hd.
      - unfold ret. intros [= <- <-]. reflexivity. }
    destruct ((if (index =? 0)%N
               then (match l with
                     | Some old => rbcloselist old
                     | None => ret tt
                     end ;; rbopenlist r)
               else ret l) w) as [rl wa] eqn:Epre.
    specialize (Hpre rl wa eq_refl).
    destruct Hwf as (Ho & Hs & _).
    destruct rl as [rl|].
    + destruct (rbreadlist rl r) as [it' rl'].
      destruct (it' =? NULL); unfold bind, ret, rbcloselist; unfold_world;
        intros [= <- <- <-]; eexists; (split; [reflexivity|]);
        (split; [apply wf_rb; assumption|]); split; auto.
    + unfold ret. intros [= <- <- <-]. eexists. split; [reflexivity|].
      split; [apply wf_rb; assumption|]. split; auto.
  - rewrite get_at_avl by assumption. intros [= <- <- <-].
    exists t. auto.
Qed.

(** Every operation keeps the invariant. *)
Lemma wf_preserved t x index w :
  wf t -> x <> NULL ->
  (exists t', snd (fst (sr_btree_insert (Some t) x w)) = Some t' /\ wf t') /\
  (exists t', fst (sr_btree_delete (Some t) x w) = Some t' /\ wf t') /\
  (exists t', snd (fst (sr_btree_search (Some t) x w)) = Some t' /\ wf t') /\
  (exists t', snd (fst (sr_btree_get_at (Some t) index w)) = Some t' /\ wf t').
Proof.
  intros Hwf Hx. split; [|split; [|split]].
  - destruct (sr_btree_insert (Some t) x w) as [[rc t1] w1] eqn:Hi.
    destruct (insert_cases t x w _ _ _ Hwf Hx Hi) as
      (_ & [(s & _ & -> & _)
           |[(_ & _ & _ & _ & t' & -> & _ & Hwf' & _)
            |(_ & _ & -> & _)]]); simpl; eauto.
  - destruct (sr_btree_delete (Some t) x w) as [t1 w1] eqn:Hd.
    destruct (delete_cases t x w _ _ Hwf Hx Hd) as
      (_ & _ & [(_ & -> & _)|(s & _ & _ & _ & t' & -> & _ & Hwf' & _)]);
      simpl; eauto.
  - rewrite search_lookup by assumption. simpl. eauto.
  - destruct (sr_btree_get_at (Some t) index w) as [[it t1] w1] eqn:Hg.
    destruct (get_at_keeps_contents t index w _ _ _ Hwf Hg) as (t' & -> & Hwf' & _).
    simpl. eauto.
Qed.

(** * The scenario of the spec, in both builds *)

Example scenario_redblack :
  scenario false =
    (map (Z.mul 16) [1; 2; 3; 4; 5; 6; 7; 8; 9], NULL,
     map (Z.mul 16) [1; 2; 3; 4; 6; 7; 8; 9],
     map (Z.mul 16) [5; 1; 2; 3; 4; 6; 7; 8; 9], 0).
Proof. vm_compute. reflexivity. Qed.

Example scenario_avl :
  scenario true =
    (map (Z.mul 16) [1; 2; 3; 4; 5; 6; 7; 8; 9], NULL,
     map (Z.mul 16) [1; 2; 3; 4; 6; 7; 8; 9],
     map (Z.mul 16) [5; 1; 2; 3; 4; 6; 7; 8; 9], 0).
Proof. vm_compute. reflexivity. Qed.

(** * Further properties of the operations *)

(** ** One call at a time *)

Ltac splits := repeat match goal with |- _ /\ _ => split end.

Lemma malloc_spec w :
  exists b w1, malloc w = (b, w1) /\
    destroyed w1 = destroyed w /\
    live w1 = live w + (if b then 1 else 0) /\
    (allocs w = [] -> allocs w1 = [] /\ b = true) /\
    (next_alloc_ok w -> b = true).
Proof.
  unfold malloc, next_alloc_ok. destruct (allocs w) as [|[] rest]; simpl;
    do 2 eexists; (split; [reflexivity|]); simpl;
    splits; try lia; try discriminate; auto.
Qed.

Lemma blocks_owned_eq t t' :
  contents t' = contents t -> cursor t' = cursor t ->
  blocks_owned t' = blocks_owned t.
Proof. unfold blocks_owned. intros -> ->. reflexivity. Qed.

(** What one [sr_btree_insert] keeps, NULL item included. *)
Lemma insert_step t x w rc t1 w1 :
  wf t ->
  sr_btree_insert (Some t) x w = (rc, t1, w1) ->
  exists t', t1 = Some t' /\ wf t' /\
    compare_item_cb t' = compare_item_cb t /\
    free_item_cb t' = free_item_cb t /\
    is_redblack t' = is_redblack t /\
    cursor t' = cursor t /\
    destroyed w1 = destroyed w /\
    live w1 - blocks_owned t' = live w - blocks_owned t /\
    (rc <> SR_ERR_OK -> t' = t /\ live w1 = live w).
Proof.
  intros Hwf Hi. destruct (Z.eq_dec x NULL) as [->|Hx].
  { unfold sr_btree_insert in Hi; simpl in Hi. injection Hi as <- <- <-.
    exists t. splits; auto. }
  destruct (insert_cases t x w _ _ _ Hwf Hx Hi) as
    (Hd & [(s & _ & -> & Hl & _)
          |[(_ & -> & _ & Hl & t' & -> & Hc & Hwf' & Hcur & Hcmp & Hf & Hrb)
           |(_ & _ & -> & _ & Hl & _)]]).
  - exists t. splits; auto. lia.
  - exists t'. splits; auto; try congruence.
    unfold blocks_owned. rewrite Hc, Hcur, link_length, Nat2Z.inj_succ. lia.
  - exists t. splits; auto. lia.
Qed.

(** What one [sr_btree_delete] does to the tree, NULL item included. *)
Lemma delete_step t x w t1 w1 :
  wf t ->
  sr_btree_delete (Some t) x w = (t1, w1) ->
  exists t', t1 = Some t' /\ wf t' /\
    compare_item_cb t' = compare_item_cb t /\
    free_item_cb t' = free_item_cb t /\
    is_redblack t' = is_redblack t /\
    cursor t' = cursor t /\
    contents t' =
      (if x =? NULL then contents t
       else unlink (compare_item_cb t) x (contents t)) /\
    live w1 - blocks_owned t' = live w - blocks_owned t /\
    allocs w1 = allocs w.
Proof.
  intros Hwf Hd. destruct (Z.eq_dec x NULL) as [->|Hx].
  { unfold sr_btree_delete in Hd; simpl in Hd. injection Hd as <- <-.
    exists t. splits; auto. }
  null_test Hx.
  destruct (delete_cases t x w _ _ Hwf Hx Hd) as
    (_ & Ha & [(Hl & -> & Hlive & _)
              |(s & Hl & Hlive & _ & t' & -> & Hc & Hwf' & Hcur & Hcmp & Hf & Hrb)]).
  - exists t. splits; auto.
    + symmetry. apply unlink_absent. exact Hl.
    + lia.
  - exists t'. splits; auto.
    unfold blocks_owned. rewrite Hc, Hcur.
    destruct (unlink_present _ x _ s Hl) as (pre & suf & -> & ->).
    rewrite !length_app. cbn [length]. lia.
Qed.

(** What one [sr_btree_get_at] keeps. *)
Lemma get_at_step t index w it t1 w1 :
  wf t ->
  sr_btree_get_at (Some t) index w = (it, t1, w1) ->
  exists t', t1 = Some t' /\ wf t' /\
    contents t' = contents t /\
    compare_item_cb t' = compare_item_cb t /\
    free_item_cb t' = free_item_cb t /\
    is_redblack t' = is_redblack t /\
    destroyed w1 = destroyed w /\
    live w1 - blocks_owned t' = live w - blocks_owned t /\
    (allocs w = [] -> allocs w1 = []) /\
    (it = NULL -> cursor t' = None).
Proof.
  intros Hwf. destruct (is_redblack t) eqn:Hrb.
  - destruct t as [[a|r l] c f]; [discriminate|].
    destruct Hwf as (Ho & Hs & _).
    unfold sr_btree_get_at; cbn [lib]. unfold bind at 1.
    assert (Hpre : exists l' wa,
      (if (index =? 0)%N
       then (match l with
             | Some old => rbcloselist old
             | None => ret tt
             end ;; rbopenlist r)
       else ret l) w = (l', wa) /\ destroyed wa = destroyed w /\
      live wa - match l' with Some _ => 1 | None => 0 end =
        live w - match l with Some _ => 1 | None => 0 end /\
      (allocs w = [] -> allocs wa = [])).
    { destruct (index =? 0)%N.
      - unfold rbopenlist, rbcloselist, bind.
        destruct l; unfold_world;
          match goal with
          | |- context [malloc ?w0] =>
              destruct (malloc_spec w0) as (b & wm & -> & Hd & Hl & Ha & _)
          end; simpl in *; destruct b; do 2 eexists;
          (split; [reflexivity|]); splits; try lia; auto;
          intros E; apply Ha; exact E.
      - unfold ret. do 2 eexists. split; [reflexivity|]. splits; auto. }
    destruct Hpre as (l' & wa & -> & Hd & Hl & Ha).
    unfold blocks_owned, contents, cursor; cbn [lib].
    destruct l' as [rl|].
    + destruct (rbreadlist rl r) as [it' rl'].
      destruct (it' =? NULL) eqn:En; unfold bind, ret, rbcloselist; unfold_world;
        intros [= <- <- <-]; eexists; (split; [reflexivity|]);
        (split; [apply wf_rb; assumption|]); unfold with_lib; simpl;
        splits; auto; try lia; try (intros ->; discriminate).
    + unfold ret. intros [= <- <- <-]. eexists. split; [reflexivity|].
      split; [apply wf_rb; assumption|]. unfold with_lib; simpl.
      splits; auto. lia.
  - rewrite get_at_avl by assumption. intros [= <- <- <-].
    exists t. splits; auto. intros _.
    destruct t as [[a|r l] c f]; [reflexivity|discriminate].
Qed.

Lemma malloc_unbounded w :
  allocs w = [] ->
  malloc w = (true, mkWorld [] (live w + 1) (failed w) (errno w) (destroyed w)).
Proof. unfold malloc. intros ->. reflexivity. Qed.

(** With an allocator that never fails, [sr_btree_insert] is the abstract
    insertion [link_new] and reports either success or a duplicate. *)
Lemma insert_unbounded t x w :
  wf t -> x <> NULL -> allocs w = [] ->
  exists rc t' w',
    sr_btree_insert (Some t) x w = (rc, Some t', w') /\
    wf t' /\ allocs w' = [] /\
    compare_item_cb t' = compare_item_cb t /\
    is_redblack t' = is_redblack t /\
    contents t' = link_new (compare_item_cb t) (contents t) x /\
    (rc = SR_ERR_OK \/ rc = SR_ERR_DATA_EXISTS).
Proof.
  intros Hwf Hx Ha.
  assert (Hal : allocs (snd (sr_btree_insert (Some t) x w)) = []).
  { unfold sr_btree_insert. null_test Hx.
    destruct t as [[a|r l] c f]; cbn [lib].
    - unfold avl_insert, bind. rewrite (malloc_unbounded w Ha).
      destruct (lookup (avl_cmp a) x (avl_items a)); unfold_world; simpl;
        reflexivity.
    - unfold rbsearch, bind.
      destruct (lookup _ x (rb_items r)) as [s|].
      + unfold ret. destruct (s =? NULL); [|destruct (negb (s =? x))]; exact Ha.
      + rewrite (malloc_unbounded w Ha). unfold ret.
        destruct (x =? NULL); [|destruct (negb (x =? x))]; reflexivity. }
  destruct (sr_btree_insert (Some t) x w) as [[rc t1] w1] eqn:Hi.
  simpl in Hal. unfold link_new.
  assert (Hok : next_alloc_ok w) by (unfold next_alloc_ok; now rewrite Ha).
  destruct (insert_cases t x w _ _ _ Hwf Hx Hi) as
    (_ & [(s & Hl & -> & _ & Hrc)
         |[(Hl & -> & _ & _ & t' & -> & Hc & Hwf' & _ & Hcmp & _ & Hrb)
          |(_ & _ & _ & _ & _ & Hno)]]); [| |contradiction].
  - exists rc, t, w1. rewrite Hl. splits; auto.
    destruct Hrc as [(-> & _)|[(-> & _)|(_ & _ & _ & Hno)]];
      [now right|now left|contradiction].
  - exists SR_ERR_OK, t', w1. rewrite Hl. splits; auto.
Qed.

(** ** Sequences of calls *)

Lemma run_op_step t o w t1 w1 :
  wf t ->
  run_op (Some t) o w = (t1, w1) ->
  exists t', t1 = Some t' /\ wf t' /\
    compare_item_cb t' = compare_item_cb t /\
    free_item_cb t' = free_item_cb t /\
    is_redblack t' = is_redblack t /\
    live w1 - blocks_owned t' = live w - blocks_owned t.
Proof.
  intros Hwf. destruct o as [x|x|x|i]; unfold run_op.
  - unfold bind, ret.
    destruct (sr_btree_insert (Some t) x w) as [[rc t2] w2] eqn:Hi.
    intros [= <- <-].
    destruct (insert_step t x w _ _ _ Hwf Hi) as
      (t' & -> & Hwf' & Hc & Hf & Hrb & _ & _ & Hl & _).
    exists t'. splits; auto.
  - intros Hd.
    destruct (delete_step t x w _ _ Hwf Hd) as
      (t' & -> & Hwf' & Hc & Hf & Hrb & _ & _ & Hl & _).
    exists t'. splits; auto.
  - unfold bind, ret.
    destruct (sr_btree_search (Some t) x w) as [[r t2] w2] eqn:Hs.
    intros [= <- <-].
    assert (E : t2 = Some t /\ w2 = w).
    { destruct (Z.eq_dec x NULL) as [->|Hx].
      - unfold sr_btree_search in Hs; simpl in Hs.
        injection Hs as _ <- <-. auto.
      - rewrite search_lookup in Hs by assumption.
        injection Hs as _ <- <-. auto. }
    destruct E as [-> ->]. exists t. splits; auto.
  - unfold bind, ret.
    destruct (sr_btree_get_at (Some t) i w) as [[it t2] w2] eqn:Hg.
    intros [= <- <-].
    destruct (get_at_step t i w _ _ _ Hwf Hg) as
      (t' & -> & Hwf' & _ & Hc & Hf & Hrb & _ & Hl & _).
    exists t'. splits; auto.
Qed.

(** Whatever the calls and the allocation outcomes, the tree object stays
    well formed, keeps its callbacks and build, and the live blocks follow
    the blocks it owns. *)
Lemma run_ops_inv ops : forall t w t1 w1,
  wf t ->
  run_ops (Some t) ops w = (t1, w1) ->
  exists t', t1 = Some t' /\ wf t' /\
    compare_item_cb t' = compare_item_cb t /\
    free_item_cb t' = free_item_cb t /\
    is_redblack t' = is_redblack t /\
    live w1 - blocks_owned t' = live w - blocks_owned t.
Proof.
  induction ops as [|o ops IH]; intros t w t1 w1 Hwf; cbn [run_ops].
  - unfold ret. intros [= <- <-]. exists t. splits; auto.
  - unfold bind at 1.
    destruct (run_op (Some t) o w) as [t2 w2] eqn:Ho.
    destruct (run_op_step t o w _ _ Hwf Ho) as
      (t' & -> & Hwf' & Hc & Hf & Hrb & Hl).
    intros Hr.
    destruct (IH t' w2 _ _ Hwf' Hr) as
      (t'' & -> & Hwf'' & Hc' & Hf' & Hrb' & Hl').
    exists t''. splits; auto; congruence.
Qed.

(** With an allocator that never fails, a sequence of calls is the fold of
    the abstract operations over the contents. *)
Lemma run_op_model t o w :
  wf t -> allocs w = [] ->
  exists t' w',
    run_op (Some t) o w = (Some t', w') /\
    wf t' /\ allocs w' = [] /\
    compare_item_cb t' = compare_item_cb t /\
    is_redblack t' = is_redblack t /\
    contents t' = model_op (compare_item_cb t) (contents t) o.
Proof.
  intros Hwf Ha. destruct o as [x|x|x|i]; unfold run_op, model_op.
  - destruct (Z.eq_dec x NULL) as [->|Hx].
    + exists t, w. splits; auto.
    + null_test Hx. unfold bind, ret.
      destruct (insert_unbounded t x w Hwf Hx Ha) as
        (rc & t' & w' & -> & Hwf' & Ha' & Hc & Hrb & Hm & _).
      exists t', w'. splits; auto.
  - destruct (sr_btree_delete (Some t) x w) as [t1 w1] eqn:Hd.
    destruct (delete_step t x w _ _ Hwf Hd) as
      (t' & -> & Hwf' & Hc & _ & Hrb & _ & Hm & _ & Ha').
    exists t', w1. splits; auto. congruence.
  - unfold bind, ret.
    destruct (Z.eq_dec x NULL) as [->|Hx].
    + exists t, w. splits; auto.
    + rewrite search_lookup by assumption. exists t, w. splits; auto.
  - unfold bind, ret.
    destruct (sr_btree_get_at (Some t) i w) as [[it t1] w1] eqn:Hg.
    destruct (get_at_step t i w _ _ _ Hwf Hg) as
      (t' & -> & Hwf' & Hm & Hc & _ & Hrb & _ & _ & Ha' & _).
    exists t', w1. splits; auto.
Qed.

Lemma run_ops_model ops : forall t w,
  wf t -> allocs w = [] ->
  exists t' w',
    run_ops (Some t) ops w = (Some t', w') /\
    wf t' /\ allocs w' = [] /\
    compare_item_cb t' = compare_item_cb t /\
    is_redblack t' = is_redblack t /\
    contents t' = fold_left (model_op (compare_item_cb t)) ops (contents t).
Proof.
  induction ops as [|o ops IH]; intros t w Hwf Ha; cbn [run_ops fold_left].
  - exists t, w. splits; auto.
  - unfold bind at 1.
    destruct (run_op_model t o w Hwf Ha) as
      (t1 & w1 & -> & Hwf1 & Ha1 & Hc1 & Hrb1 & Hm1).
    destruct (IH t1 w1 Hwf1 Ha1) as
      (t2 & w2 & -> & Hwf2 & Ha2 & Hc2 & Hrb2 & Hm2).
    exists t2, w2. splits; auto; congruence.
Qed.

(** ** More on in-order contents *)

Section InOrderMore.
Context (cmp : sr_btree_compare_item_cb) `{TotalOrder cmp}.

Local Notation "'sorted'" := (StronglySorted (fun x y => cmp x y < 0)).

Lemma cmp_eq_gt k x y : cmp k x = 0 -> 0 < cmp x y -> 0 < cmp k y.
Proof.
  intros E G. apply cmp_flip.
  apply (cmp_lt_eq cmp y x k); [apply cmp_flip; exact G|].
  apply cmp_eq_sym; assumption.
Qed.

Lemma unlink_keeps key l y :
  In y l -> cmp key y <> 0 -> In y (unlink cmp key l).
Proof.
  induction l as [|x l IH]; simpl; [auto|].
  intros Hin Hne.
  destruct (cmp key x =? 0) eqn:E.
  - apply Z.eqb_eq in E. destruct Hin as [->|Hin]; [contradiction|assumption].
  - destruct (cmp key x <? 0); [exact Hin|].
    destruct Hin as [->|Hin]; [now left|right; auto].
Qed.

Lemma unlink_link x l k :
  lookup cmp x l = None -> cmp k x = 0 -> unlink cmp k (link cmp x l) = l.
Proof.
  intros Hl E. induction l as [|y l IH]; simpl in *.
  - rewrite E. reflexivity.
  - destruct (cmp x y =? 0) eqn:E0; [discriminate|]. apply Z.eqb_neq in E0.
    destruct (cmp x y <? 0) eqn:L; simpl.
    + rewrite E. reflexivity.
    + apply Z.ltb_ge in L.
      assert (G : 0 < cmp k y) by (apply (cmp_eq_gt k x y); [assumption|lia]).
      assert (E1 : (cmp k y =? 0) = false) by (apply Z.eqb_neq; lia).
      assert (E2 : (cmp k y <? 0) = false) by (apply Z.ltb_ge; lia).
      rewrite E1, E2, IH by assumption. reflexivity.
Qed.

Lemma sorted_distinct l : sorted l -> keys_distinct cmp l.
Proof.
  induction 1 as [|x l Hs IH Hx]; intros a b Ha Hb E; [contradiction|].
  rewrite Forall_forall in Hx.
  destruct Ha as [Ha|Ha], Hb as [Hb|Hb]; subst.
  - reflexivity.
  - specialize (Hx b Hb). exfalso. lia.
  - specialize (Hx a Ha). pose proof (cmp_eq_sym cmp _ _ E). exfalso. lia.
  - apply (IH a b); assumption.
Qed.

(** Two increasing lists with the same elements are the same list. *)
Lemma sorted_ext l1 : forall l2,
  sorted l1 -> sorted l2 -> (forall y, In y l1 <-> In y l2) -> l1 = l2.
Proof.
  induction l1 as [|x l1 IH]; intros [|y l2] H1 H2 Hiff.
  - reflexivity.
  - exfalso. apply (proj2 (Hiff y)). now left.
  - exfalso. apply (proj1 (Hiff x)). now left.
  - inversion H1 as [|? ? H1' Hx]; inversion H2 as [|? ? H2' Hy]; subst.
    rewrite Forall_forall in Hx, Hy.
    assert (Exy : x = y).
    { destruct (proj1 (Hiff x) (or_introl eq_refl)) as [->|Hin]; [reflexivity|].
      destruct (proj2 (Hiff y) (or_introl eq_refl)) as [->|Hin']; [reflexivity|].
      specialize (Hy x Hin). specialize (Hx y Hin').
      apply cmp_flip in Hy. lia. }
    subst y. f_equal. apply IH; auto.
    intros z. split; intros Hz.
    + destruct (proj1 (Hiff z) (or_intror Hz)) as [<-|Hin]; [|exact Hin].
      specialize (Hx x Hz). rewrite cmp_refl in Hx. lia.
    + destruct (proj2 (Hiff z) (or_intror Hz)) as [<-|Hin]; [|exact Hin].
      specialize (Hy x Hz). rewrite cmp_refl in Hy. lia.
Qed.

Lemma link_new_sorted l x : sorted l -> sorted (link_new cmp l x).
Proof.
  intros Hs. unfold link_new.
  destruct (lookup cmp x l) eqn:Hl; [exact Hs|].
  apply link_sorted; assumption.
Qed.

(** On lists of pairwise unequal items, a batch of insertions adds exactly
    the batch. *)
Lemma fold_link_new_In items : forall l,
  sorted l -> keys_distinct cmp (l ++ items) ->
  forall y, In y (fold_left (link_new cmp) items l) <-> In y l \/ In y items.
Proof.
  induction items as [|x items IH]; intros l Hs Hk y; cbn [fold_left].
  - simpl. tauto.
  - assert (Hstep : forall z, In z (link_new cmp l x) <-> In z l \/ z = x).
    { intros z. unfold link_new.
      destruct (lookup cmp x l) as [s|] eqn:Hl.
      - apply lookup_Some in Hl. destruct Hl as [Hin E].
        assert (x = s).
        { apply Hk; [|apply in_or_app; now left|exact E].
          apply in_or_app. right. now left. }
        subst s. split; [tauto|]. intros [Hz| ->]; assumption.
      - rewrite link_In. tauto. }
    rewrite IH.
    + rewrite Hstep. simpl. intuition.
    + apply link_new_sorted; assumption.
    + intros a b Ha Hb. apply Hk.
      * apply in_app_or in Ha. apply in_or_app.
        destruct Ha as [Ha|Ha]; [|right; now right].
        apply Hstep in Ha. destruct Ha as [Ha| ->]; [now left|right; now left].
      * apply in_app_or in Hb. apply in_or_app.
        destruct Hb as [Hb|Hb]; [|right; now right].
        apply Hstep in Hb. destruct Hb as [Hb| ->]; [now left|right; now left].
Qed.

Lemma fold_link_new_sorted items : forall l,
  sorted l -> sorted (fold_left (link_new cmp) items l).
Proof.
  induction items as [|x items IH]; intros l Hs; cbn [fold_left]; [exact Hs|].
  apply IH. apply link_new_sorted; assumption.
Qed.

Lemma filter_none (f : ptr -> bool) l :
  (forall z, In z l -> f z = false) -> filter f l = [].
Proof.
  induction l as [|x l IH]; intros Hf; simpl; [reflexivity|].
  rewrite (Hf x (or_introl eq_refl)). apply IH.
  intros z Hz. apply Hf. now right.
Qed.

(** In an increasing list the item at position [i] has exactly [i]
    smaller items. *)
Lemma sorted_rank l : sorted l -> forall i, (i < length l)%nat ->
  length (filter (fun z => cmp z (nth i l NULL) <? 0) l) = i.
Proof.
  induction 1 as [|x l Hs IH Hx]; intros i Hi; simpl in Hi; [lia|].
  rewrite Forall_forall in Hx. destruct i as [|i]; cbn [nth filter].
  - rewrite cmp_refl. simpl. rewrite filter_none; [reflexivity|].
    intros z Hz. apply Z.ltb_ge. specialize (Hx z Hz).
    apply cmp_flip in Hx. lia.
  - assert (Hin : In (nth i l NULL) l) by (apply nth_In; lia).
    specialize (Hx _ Hin). apply Z.ltb_lt in Hx. rewrite Hx.
    cbn [length]. f_equal. apply IH. lia.
Qed.
End InOrderMore.

(** ** Cleanup, whatever the allocator does *)

Lemma cleanup_run t fuel w :
  wf t -> (length (contents t) < fuel)%nat ->
  exists w',
    sr_btree_cleanup fuel (Some t) w = (Some tt, w') /\
    live w' = live w - blocks_owned t /\
    destroyed w' =
      destroyed w ++
        (if free_item_cb t && (negb (is_redblack t) || hd true (allocs w))
         then contents t else []).
Proof.
  intros Hwf Hfuel.
  pose proof (wf_NoDup t Hwf) as Hnd.
  destruct Hwf as (Ho & (Hs & Hnn) & Hh).
  destruct t as [[a|r l] c f];
    unfold blocks_owned, contents, cursor, is_redblack in *;
    cbn [lib free_item_cb] in *.
  - destruct Hh as [_ Hf]. unfold sr_btree_cleanup; cbn [lib].
    unfold avl_free_tree, bind. rewrite free_nodes_run. unfold_world.
    cbn [allocs live failed errno destroyed]. rewrite Hf.
    eexists; split; [reflexivity|]. cbn [destroyed live negb orb].
    rewrite andb_true_r. split; [lia|reflexivity].
  - unfold sr_btree_cleanup; cbn [lib free_item_cb negb orb].
    destruct f; cbn [andb].
    + unfold rbopenlist. unfold bind at 1. unfold bind at 1. unfold bind at 1.
      unfold malloc.
      destruct (allocs w) as [|[] rest] eqn:Ea; cbn [hd].
      * unfold ret at 1. unfold bind at 1.
        rewrite (free_items_loop_run r Hnd Hnn (rb_items r) [] fuel _ eq_refl Hfuel).
        unfold rbcloselist, rbdestroy. unfold_world.
        cbn [allocs live failed errno destroyed].
        destruct l as [rl|]; cbn [allocs live failed errno destroyed];
          (eexists; split; [reflexivity|]); cbn [destroyed live];
          (split; [lia|reflexivity]).
      * unfold ret at 1. unfold bind at 1.
        rewrite (free_items_loop_run r Hnd Hnn (rb_items r) [] fuel _ eq_refl Hfuel).
        unfold rbcloselist, rbdestroy. unfold_world.
        cbn [allocs live failed errno destroyed].
        destruct l as [rl|]; cbn [allocs live failed errno destroyed];
          (eexists; split; [reflexivity|]); cbn [destroyed live];
          (split; [lia|reflexivity]).
      * unfold rbcloselist, rbdestroy. unfold_world.
        destruct l as [rl|]; cbn [allocs live failed errno destroyed];
          (eexists; split; [reflexivity|]); cbn [destroyed live];
          rewrite app_nil_r; (split; [lia|reflexivity]).
    + unfold rbcloselist, rbdestroy. unfold_world.
      destruct l as [rl|]; cbn [allocs live failed errno destroyed];
        (eexists; split; [reflexivity|]); cbn [destroyed live];
        rewrite app_nil_r; (split; [lia|reflexivity]).
Qed.

(** ** Walks, in full *)

Lemma walk_app indices1 : forall indices2 tree w,
  walk tree (indices1 ++ indices2) w =
    (let '(its1, tree1, w1) := walk tree indices1 w in
     let '(its2, tree2, w2) := walk tree1 indices2 w1 in
     (its1 ++ its2, tree2, w2)).
Proof.
  induction indices1 as [|i rest IH]; intros indices2 tree w.
  - cbn [app walk]. unfold ret.
    destruct (walk tree indices2 w) as [[its2 tree2] w2]. reflexivity.
  - cbn [app walk]. unfold bind, ret.
    destruct (sr_btree_get_at tree i w) as [[it tree1] w1].
    rewrite IH.
    destruct (walk tree1 rest w1) as [[its1 tree2] w2].
    destruct (walk tree2 indices2 w2) as [[its2 tree3] w3].
    reflexivity.
Qed.

Lemma upto_snoc n : upto (S n) = upto n ++ [N.of_nat n].
Proof.
  unfold upto. rewrite seq_S, map_app. reflexivity.
Qed.

(** The red-black walk over all [n] items, started by index 0: the items,
    and a walk left open past the last item. *)
Lemma walk_rb_all c f r l w :
  NoDup (rb_items r) -> Forall (fun x => x <> NULL) (rb_items r) ->
  rb_items r <> [] -> next_alloc_ok w ->
  exists w1,
    walk (Some (mkTree (RedblackLib r l) c f)) (upto (length (rb_items r))) w =
      (rb_items r, Some (mkTree (RedblackLib r (Some (mkRblist None))) c f), w1) /\
    destroyed w1 = destroyed w /\
    live w1 = live w + 1 - match l with Some _ => 1 | None => 0 end.
Proof.
  intros Hnd Hnn Hne Hok.
  destruct (rb_items r) as [|y rest] eqn:Hr; [congruence|].
  cbn [length]. rewrite upto_S. cbn [walk]. unfold bind at 1.
  destruct (get_at_rb_zero c f r l w Hok) as (w1 & Hg & Hd & _ & Hl).
  { rewrite Hr. exact Hnn. }
  rewrite Hr in Hg, Hl. rewrite Hg. unfold bind at 1.
  rewrite (walk_rb_next c f r) with (pre := [y]);
    rewrite ?Hr, ?length_map, ?length_seq; auto using seq_nonzero.
  rewrite firstn_all, skipn_all. unfold ret.
  exists w1. splits; auto.
Qed.

(** ** Initialisation and NULL arguments *)

(** X1: [sr_btree_init] answers [SR_ERR_OK] exactly when it stores a tree,
    and [SR_ERR_INVAL_ARG] exactly when the comparator or the out-parameter
    is NULL, in which case nothing happens at all.  A stored tree is empty,
    has no open walk, holds the callbacks given and owns two blocks; when
    no tree is stored no block is kept.  No destructor runs. *)
Theorem init_outcome use_avl cmp f tree_p w rc t w' :
  sr_btree_init use_avl cmp f tree_p w = (rc, t, w') ->
  (rc = SR_ERR_OK <-> t <> None) /\
  (rc = SR_ERR_INVAL_ARG <-> cmp = None \/ tree_p = false) /\
  (rc = SR_ERR_INVAL_ARG -> w' = w) /\
  (t = None -> live w' = live w) /\
  destroyed w' = destroyed w /\
  (forall t0, t = Some t0 ->
     contents t0 = [] /\ cursor t0 = None /\
     Some (compare_item_cb t0) = cmp /\ free_item_cb t0 = f /\
     is_redblack t0 = negb use_avl /\ live w' = live w + 2).
Proof.
  assert (Leaf : forall (rc0 : sr_error_t) (t1 : option sr_btree_t) (w0 : world),
    (rc0 = SR_ERR_OK <-> t1 <> None) ->
    (rc0 = SR_ERR_INVAL_ARG <-> cmp = None \/ tree_p = false) ->
    (rc0 = SR_ERR_INVAL_ARG -> w0 = w) ->
    (t1 = None -> live w0 = live w) ->
    destroyed w0 = destroyed w ->
    (forall t0, t1 = Some t0 ->
       contents t0 = [] /\ cursor t0 = None /\
       Some (compare_item_cb t0) = cmp /\ free_item_cb t0 = f /\
       is_redblack t0 = negb use_avl /\ live w0 = live w + 2) ->
    (rc0, t1, w0) = (rc, t, w') ->
    (rc = SR_ERR_OK <-> t <> None) /\
    (rc = SR_ERR_INVAL_ARG <-> cmp = None \/ tree_p = false) /\
    (rc = SR_ERR_INVAL_ARG -> w' = w) /\
    (t = None -> live w' = live w) /\
    destroyed w' = destroyed w /\
    (forall t0, t = Some t0 ->
       contents t0 = [] /\ cursor t0 = None /\
       Some (compare_item_cb t0) = cmp /\ free_item_cb t0 = f /\
       is_redblack t0 = negb use_avl /\ live w' = live w + 2)).
  { intros rc0 t1 w0 H1 H2 H3 H4 H5 H6 [= <- <- <-]. auto 10. }
  unfold sr_btree_init.
  destruct cmp as [c|].
  2:{ apply Leaf; try (intros; congruence); try reflexivity.
      - split; [discriminate|congruence].
      - split; [now left|reflexivity]. }
  destruct tree_p; cbn [negb].
  2:{ apply Leaf; try (intros; congruence); try reflexivity.
      - split; [discriminate|congruence].
      - split; [now right|reflexivity]. }
  unfold bind at 1.
  destruct (malloc_cases w) as [(wm & Hm & Hl & _ & Hd & _)
                               |(wm & Hm & Hl & _ & Hd & _)];
    rewrite Hm; cbn [negb].
  - destruct use_avl; unfold avl_alloc_tree, rbinit, bind;
      (destruct (malloc_cases wm) as [(wn & Hn & Hl' & _ & Hd' & _)
                                     |(wn & Hn & Hl' & _ & Hd' & _)];
       rewrite Hn; unfold_world; simpl);
      apply Leaf; simpl;
      try (split; [try discriminate; congruence
                  |try reflexivity; try congruence; intros [?|?]; discriminate]);
      try discriminate; try congruence; try (intros; lia);
      try (intros t0 [= <-]; splits; try reflexivity; lia).
  - unfold ret. apply Leaf;
      try (split; [try discriminate; congruence
                  |try reflexivity; try congruence; intros [?|?]; discriminate]);
      try discriminate; try congruence; try (intros; lia).
Qed.

Lemma init_outcome_witness :
  (SR_ERR_NOMEM = SR_ERR_OK <-> (None : option sr_btree_t) <> None) /\
  (SR_ERR_NOMEM = SR_ERR_INVAL_ARG <-> Some by_record = None \/ true = false) /\
  (SR_ERR_NOMEM = SR_ERR_INVAL_ARG ->
   mkWorld [] 0 1 ENOMEM [] = world0 [true; false]) /\
  ((None : option sr_btree_t) = None ->
   live (mkWorld [] 0 1 ENOMEM []) = live (world0 [true; false])) /\
  destroyed (mkWorld [] 0 1 ENOMEM []) = destroyed (world0 [true; false]) /\
  (forall t0, None = Some t0 ->
     contents t0 = [] /\ cursor t0 = None /\
     Some (compare_item_cb t0) = Some by_record /\ free_item_cb t0 = true /\
     is_redblack t0 = negb true /\
     live (mkWorld [] 0 1 ENOMEM []) = live (world0 [true; false]) + 2).
Proof.
  apply (init_outcome true (Some by_record) true true (world0 [true; false])).
  reflexivity.
Defined.

(** X2: a NULL tree or a NULL item makes every operation return at once:
    [SR_ERR_INVAL_ARG] from insert, NULL from search and get_at, nothing
    from delete and cleanup; the tree and the world are left untouched, in
    particular no destructor runs on a NULL item. *)
Theorem null_arguments_have_no_effect tree x index fuel w :
  sr_btree_insert None x w = (SR_ERR_INVAL_ARG, None, w) /\
  sr_btree_insert tree NULL w = (SR_ERR_INVAL_ARG, tree, w) /\
  sr_btree_delete None x w = (None, w) /\
  sr_btree_delete tree NULL w = (tree, w) /\
  sr_btree_search None x w = (NULL, None, w) /\
  sr_btree_search tree NULL w = (NULL, tree, w) /\
  sr_btree_get_at None index w = (NULL, None, w) /\
  sr_btree_cleanup fuel None w = (Some tt, w).
Proof.
  splits; try reflexivity; destruct tree; reflexivity.
Qed.

(** ** Insertion and deletion on the contents *)

(** X3: inserting a non-NULL item that no stored item equals, when the node
    can be allocated, succeeds and adds exactly that item: the contents
    gain it and nothing else, the count grows by one, one more block is
    live, the walk is untouched and no destructor runs. *)
Theorem insert_fresh_adds_item t x w :
  wf t -> x <> NULL ->
  (forall s, In s (contents t) -> compare_item_cb t x s <> 0) ->
  next_alloc_ok w ->
  exists t' w',
    sr_btree_insert (Some t) x w = (SR_ERR_OK, Some t', w') /\
    wf t' /\
    (forall y, In y (contents t') <-> y = x \/ In y (contents t)) /\
    length (contents t') = S (length (contents t)) /\
    cursor t' = cursor t /\ live w' = live w + 1 /\
    destroyed w' = destroyed w.
Proof.
  intros Hwf Hx Hfresh Hok.
  destruct (sr_btree_insert (Some t) x w) as [[rc t1] w1] eqn:Hi.
  destruct (insert_cases t x w _ _ _ Hwf Hx Hi) as
    (Hd & [(s & Hl & _)
          |[(Hl & -> & _ & Hlive & t' & -> & Hc & Hwf' & Hcur & _)
           |(_ & _ & _ & _ & _ & Hno)]]); [| |contradiction].
  - apply lookup_Some in Hl. destruct Hl as [Hin E].
    exfalso. exact (Hfresh s Hin E).
  - exists t', w1. splits; auto.
    + intros y. rewrite Hc. apply link_In.
    + rewrite Hc. apply link_length.
Qed.

Lemma insert_fresh_adds_item_witness :
  exists t' w',
    sr_btree_insert (Some (avl_tree_of [16; 48] true)) 32 (world0 [true]) =
      (SR_ERR_OK, Some t', w') /\
    wf t' /\
    (forall y, In y (contents t') <->
               y = 32 \/ In y (contents (avl_tree_of [16; 48] true))) /\
    length (contents t') = S (length (contents (avl_tree_of [16; 48] true))) /\
    cursor t' = cursor (avl_tree_of [16; 48] true) /\
    live w' = live (world0 [true]) + 1 /\
    destroyed w' = destroyed (world0 [true]).
Proof.
  apply (insert_fresh_adds_item (avl_tree_of [16; 48] true) 32 (world0 [true])).
  - apply wf_avl_tree_of. reflexivity.
  - discriminate.
  - intros s [<-|[<-|[]]]; discriminate.
  - reflexivity.
Defined.

(** X4: [sr_btree_insert] is all or nothing.  Any answer other than
    [SR_ERR_OK] leaves the tree, the live blocks and the destructor log as
    they were; after [SR_ERR_OK] the item is among the contents. *)
Theorem insert_all_or_nothing t x w rc t1 w1 :
  wf t ->
  sr_btree_insert (Some t) x w = (rc, t1, w1) ->
  (rc <> SR_ERR_OK ->
   t1 = Some t /\ live w1 = live w /\ destroyed w1 = destroyed w) /\
  (rc = SR_ERR_OK -> exists t', t1 = Some t' /\ In x (contents t')).
Proof.
  intros Hwf Hi. destruct (Z.eq_dec x NULL) as [->|Hx].
  { unfold sr_btree_insert in Hi; simpl in Hi. injection Hi as <- <- <-.
    split; [auto|discriminate]. }
  destruct (insert_cases t x w _ _ _ Hwf Hx Hi) as
    (Hd & [(s & Hl & -> & Hlive & Hrc)
          |[(Hl & -> & _ & _ & t' & -> & Hc & _)
           |(_ & -> & -> & _ & Hlive & _)]]).
  - split; [auto|]. intros ->. exists t. split; [reflexivity|].
    destruct Hrc as [(Hrc & _)|[(_ & _ & <- & _)|(Hrc & _)]];
      try discriminate.
    apply (lookup_Some _ _ _ _ Hl).
  - split; [congruence|]. intros _. exists t'. split; [reflexivity|].
    rewrite Hc. apply link_In. now left.
  - split; [auto|discriminate].
Qed.

Lemma insert_all_or_nothing_witness :
  (SR_ERR_DATA_EXISTS <> SR_ERR_OK ->
   Some (rb_tree_of [16; 48] None true) = Some (rb_tree_of [16; 48] None true) /\
   live (world0 [false]) = live (world0 [false]) /\
   destroyed (world0 [false]) = destroyed (world0 [false])) /\
  (SR_ERR_DATA_EXISTS = SR_ERR_OK ->
   exists t', Some (rb_tree_of [16; 48] None true) = Some t' /\
              In 17 (contents t')).
Proof.
  apply (insert_all_or_nothing (rb_tree_of [16; 48] None true) 17 (world0 [false])).
  - apply wf_rb_tree_of. reflexivity.
  - reflexivity.
Defined.

(** X5: [sr_btree_delete] with a non-NULL key removes the stored item that
    compares equal to it and no other: an item is stored afterwards exactly
    when it was stored before and does not compare equal to the key.  The
    walk of the red-black build is not touched. *)
Theorem delete_removes_only_equal t x w t1 w1 :
  wf t -> x <> NULL ->
  sr_btree_delete (Some t) x w = (t1, w1) ->
  exists t', t1 = Some t' /\ wf t' /\
    (forall y, In y (contents t') <->
               In y (contents t) /\ compare_item_cb t x y <> 0) /\
    cursor t' = cursor t.
Proof.
  intros Hwf Hx Hd.
  pose proof (wf_order t Hwf) as Ho. pose proof (wf_sorted t Hwf) as Hs.
  destruct (delete_step t x w _ _ Hwf Hd) as
    (t' & -> & Hwf' & _ & _ & _ & Hcur & Hc & _).
  null_test Hx. rewrite E in Hc.
  exists t'. splits; auto.
  intros y. rewrite Hc. split.
  - intros Hin. split; [eapply unlink_sub; eassumption|].
    eapply unlink_not_equal; eassumption.
  - intros [Hin Hne]. apply unlink_keeps; assumption.
Qed.

Lemma delete_removes_only_equal_witness :
  exists t',
    Some (rb_tree_of [16; 48] (Some (mkRblist (Some 48))) false) = Some t' /\
    wf t' /\
    (forall y, In y (contents t') <->
       In y (contents (rb_tree_of [16; 33; 48] (Some (mkRblist (Some 48))) false)) /\
       compare_item_cb (rb_tree_of [16; 33; 48] (Some (mkRblist (Some 48))) false)
         32 y <> 0) /\
    cursor t' = cursor (rb_tree_of [16; 33; 48] (Some (mkRblist (Some 48))) false).
Proof.
  apply (delete_removes_only_equal
           (rb_tree_of [16; 33; 48] (Some (mkRblist (Some 48))) false) 32
           (world0 []) _ (mkWorld [] (-1) 0 0 [])).
  - apply wf_rb_tree_of. reflexivity.
  - discriminate.
  - reflexivity.
Defined.

(** X6: inserting a fresh item and then deleting by any key equal to it
    gives back the contents, the walk and the number of live blocks there
    were before.  If a destructor is registered it has run once: on the
    stored item in the AVL build, on the key in the red-black build. *)
Theorem insert_then_delete_restores t x k w :
  wf t -> x <> NULL -> k <> NULL -> compare_item_cb t k x = 0 ->
  (forall s, In s (contents t) -> compare_item_cb t x s <> 0) ->
  next_alloc_ok w ->
  exists t1 w1 t2 w2,
    sr_btree_insert (Some t) x w = (SR_ERR_OK, Some t1, w1) /\
    sr_btree_delete (Some t1) k w1 = (Some t2, w2) /\
    contents t2 = contents t /\ cursor t2 = cursor t /\
    live w2 = live w /\
    destroyed w2 =
      destroyed w ++
        (if free_item_cb t then [if is_redblack t then k else x] else []).
Proof.
  intros Hwf Hx Hk E Hfresh Hok. pose proof (wf_order t Hwf) as Ho.
  pose proof (wf_sorted t Hwf) as Hs.
  destruct (sr_btree_insert (Some t) x w) as [[rc t1] w1] eqn:Hi.
  destruct (insert_cases t x w _ _ _ Hwf Hx Hi) as
    (Hd & [(s & Hl & _)
          |[(Hl & -> & _ & Hlive & t' & -> & Hc & Hwf' & Hcur & Hcmp & Hf & Hrb)
           |(_ & _ & _ & _ & _ & Hno)]]); [| |contradiction].
  { apply lookup_Some in Hl. destruct Hl as [Hin E'].
    exfalso. exact (Hfresh s Hin E'). }
  destruct (sr_btree_delete (Some t') k w1) as [t2 w2] eqn:Hdel.
  assert (Hl' : lookup (compare_item_cb t') k (contents t') = Some x).
  { rewrite Hc, Hcmp. apply lookup_link; assumption. }
  destruct (delete_cases t' k w1 _ _ Hwf' Hk Hdel) as
    (_ & _ & [(Hl2 & _)
             |(s & Hl2 & Hlive2 & Hdes2 & t'' & -> & Hc2 & _ & Hcur2 & _)]);
    [congruence|].
  assert (s = x) by congruence. subst s.
  exists t', w1, t'', w2. splits; auto.
  - rewrite Hc2, Hc, Hcmp. apply unlink_link; assumption.
  - congruence.
  - lia.
  - rewrite Hdes2, Hd, Hf, Hrb. reflexivity.
Qed.

Lemma insert_then_delete_restores_witness :
  exists t1 w1 t2 w2,
    sr_btree_insert (Some (rb_tree_of [16; 48] None true)) 32 (world0 []) =
      (SR_ERR_OK, Some t1, w1) /\
    sr_btree_delete (Some t1) 33 w1 = (Some t2, w2) /\
    contents t2 = contents (rb_tree_of [16; 48] None true) /\
    cursor t2 = cursor (rb_tree_of [16; 48] None true) /\
    live w2 = live (world0 []) /\
    destroyed w2 = destroyed (world0 []) ++ [33].
Proof.
  apply (insert_then_delete_restores
           (rb_tree_of [16; 48] None true) 32 33 (world0 [])).
  - apply wf_rb_tree_of. reflexivity.
  - discriminate.
  - discriminate.
  - reflexivity.
  - intros s [<-|[<-|[]]]; discriminate.
  - reflexivity.
Defined.

(** X7: deleting by the same key a second time finds nothing: the tree
    and the live blocks stay as the first deletion left them. *)
Theorem delete_twice_is_delete_once t x w t1 w1 t2 w2 :
  wf t -> x <> NULL ->
  sr_btree_delete (Some t) x w = (t1, w1) ->
  sr_btree_delete t1 x w1 = (t2, w2) ->
  t2 = t1 /\ live w2 = live w1.
Proof.
  intros Hwf Hx Hd1 Hd2.
  pose proof (wf_order t Hwf) as Ho. pose proof (wf_sorted t Hwf) as Hs.
  destruct (delete_step t x w _ _ Hwf Hd1) as
    (t' & -> & Hwf' & Hcmp & _ & _ & _ & Hc & _).
  null_test Hx. rewrite E in Hc.
  destruct (delete_cases t' x w1 _ _ Hwf' Hx Hd2) as
    (_ & _ & [(_ & -> & Hlive & _)|(s & Hl & _)]); [auto|].
  rewrite Hc, Hcmp in Hl.
  rewrite (lookup_unlink (compare_item_cb t) x _ x Hs (cmp_refl x)) in Hl.
  discriminate.
Qed.

Lemma delete_twice_is_delete_once_witness :
  Some (avl_tree_of [16; 48] true) = Some (avl_tree_of [16; 48] true) /\
  live (mkWorld [] (-1) 0 0 [32]) = live (mkWorld [] (-1) 0 0 [32]).
Proof.
  apply (delete_twice_is_delete_once
           (avl_tree_of [16; 32; 48] true) 33 (world0 [])
           (Some (avl_tree_of [16; 48] true)) (mkWorld [] (-1) 0 0 [32])
           (Some (avl_tree_of [16; 48] true)) (mkWorld [] (-1) 0 0 [32])).
  - apply wf_avl_tree_of. reflexivity.
  - discriminate.
  - reflexivity.
  - reflexivity.
Defined.

(** ** Reading by index, further *)

(** X8: reading one index more than there are items returns NULL after
    the items, in both builds; in the red-black build that last read
    closes the walk, so that afterwards no walk is open and only the
    blocks of the tree itself are live. *)
Theorem walk_past_the_end t w its t1 w1 :
  wf t -> (is_redblack t = true -> next_alloc_ok w) ->
  walk (Some t) (upto (S (length (contents t)))) w = (its, t1, w1) ->
  its = contents t ++ [NULL] /\
  exists t', t1 = Some t' /\ contents t' = contents t /\ cursor t' = None /\
    live w1 - blocks_owned t' = live w - blocks_owned t.
Proof.
  intros Hwf Hok. destruct (is_redblack t) eqn:Hrb.
  - pose proof (wf_NoDup t Hwf) as Hnd.
    destruct Hwf as (Ho & (Hs & Hnn) & _).
    destruct t as [[a|r l] c f]; [discriminate|].
    unfold contents, blocks_owned, cursor in *; cbn [lib] in *.
    specialize (Hok eq_refl).
    destruct (rb_items r) as [|y rest] eqn:Hr.
    + cbn [length]. rewrite upto_S. cbn [seq map walk].
      unfold bind at 1.
      destruct (get_at_rb_zero c f r l w Hok) as (wz & Hg & _ & _ & Hl).
      { rewrite Hr. constructor. }
      rewrite Hr in Hg, Hl. rewrite Hg. unfold bind, ret.
      intros [= <- <- <-]. split; [reflexivity|].
      eexists. split; [reflexivity|].
      unfold blocks_owned, contents, cursor; cbn [lib]. rewrite Hr.
      splits; auto. cbn [length]. lia.
    + rewrite <- Hr. rewrite upto_snoc, walk_app.
      destruct (walk_rb_all c f r l w) as (wa & Hw & _ & Hl); auto;
        try (rewrite Hr; assumption || discriminate).
      rewrite Hw. cbn [walk]. unfold bind at 1.
      assert (Hi : (N.of_nat (length (rb_items r)) =? 0)%N = false).
      { apply N.eqb_neq. rewrite Hr. cbn [length]. lia. }
      unfold sr_btree_get_at; cbn [lib]. rewrite Hi.
      unfold bind, ret, rbreadlist, rbcloselist; unfold_world;
        cbn -[Z.add Z.sub Z.of_nat].
      intros [= <- <- <-]. split; [reflexivity|].
      eexists. split; [reflexivity|].
      unfold blocks_owned, contents, cursor, with_lib;
        cbn -[Z.add Z.sub Z.of_nat].
      splits; auto. lia.
  - rewrite upto_snoc, walk_app. unfold upto.
    rewrite walk_avl by (assumption || lia).
    cbn [walk]. unfold bind at 1. rewrite get_at_avl by assumption.
    unfold bind, ret. rewrite Nnat.Nat2N.id, nth_overflow by lia.
    rewrite firstn_all. intros [= <- <- <-]. split; [reflexivity|].
    exists t. splits; auto.
    destruct t as [[a|r l] c f]; [reflexivity|discriminate].
Qed.

Lemma walk_past_the_end_witness :
  [16; 32; NULL] = contents (rb_tree_of [16; 32] None true) ++ [NULL] /\
  exists t', Some (rb_tree_of [16; 32] None true) = Some t' /\
    contents t' = contents (rb_tree_of [16; 32] None true) /\
    cursor t' = None /\
    live (world0 []) - blocks_owned t' =
      live (world0 []) - blocks_owned (rb_tree_of [16; 32] None true).
Proof.
  apply (walk_past_the_end (rb_tree_of [16; 32] None true) (world0 [])).
  - apply wf_rb_tree_of. reflexivity.
  - intros _. reflexivity.
  - reflexivity.
Defined.

(** X9: in the AVL build, for an index below 2^32 (which libavl's
    [unsigned int] position receives unchanged), [sr_btree_get_at] is
    positional and stateless: tree and world are untouched, the result is
    NULL exactly when the index is not below the number of items, and
    otherwise it is the stored item that has exactly [index] smaller
    items. *)
Theorem avl_get_at_is_rank t index w it t1 w1 :
  wf t -> is_redblack t = false -> (index < 2 ^ 32)%N ->
  sr_btree_get_at (Some t) index w = (it, t1, w1) ->
  t1 = Some t /\ w1 = w /\
  (it = NULL <-> (length (contents t) <= N.to_nat index)%nat) /\
  (it <> NULL ->
   In it (contents t) /\
   length (filter (fun z => compare_item_cb t z it <? 0) (contents t)) =
     N.to_nat index).
Proof.
  intros Hwf Hrb _. rewrite get_at_avl by assumption. intros [= <- <- <-].
  pose proof (wf_order t Hwf) as Ho. pose proof (wf_sorted t Hwf) as Hs.
  destruct (Nat.lt_ge_cases (N.to_nat index) (length (contents t))) as [Hlt|Hge].
  - assert (Hin : In (nth (N.to_nat index) (contents t) NULL) (contents t))
      by (apply nth_In; exact Hlt).
    pose proof (wf_nonnull t _ Hwf Hin) as Hnn.
    splits; auto.
    + split; [contradiction|lia].
    + intros _. split; [exact Hin|].
      apply (sorted_rank (compare_item_cb t)); assumption.
  - rewrite nth_overflow by exact Hge. splits; auto.
    + tauto.
    + congruence.
Qed.

Lemma avl_get_at_is_rank_witness :
  Some (avl_tree_of [16; 32; 48] true) = Some (avl_tree_of [16; 32; 48] true) /\
  world0 [] = world0 [] /\
  (48 = NULL <->
   Nat.le (length (contents (avl_tree_of [16; 32; 48] true))) (N.to_nat 2)) /\
  (48 <> NULL ->
   In 48 (contents (avl_tree_of [16; 32; 48] true)) /\
   length (filter (fun z => compare_item_cb (avl_tree_of [16; 32; 48] true) z 48 <? 0)
             (contents (avl_tree_of [16; 32; 48] true))) = N.to_nat 2).
Proof.
  apply (avl_get_at_is_rank (avl_tree_of [16; 32; 48] true) 2%N (world0 [])).
  - apply wf_avl_tree_of. reflexivity.
  - reflexivity.
  - reflexivity.
  - reflexivity.
Defined.

(** ** A tree through its life *)

Lemma init_unbounded use_avl c f w :
  TotalOrder c -> allocs w = [] ->
  exists t0 w1,
    sr_btree_init use_avl (Some c) f true w = (SR_ERR_OK, Some t0, w1) /\
    wf t0 /\ allocs w1 = [] /\ compare_item_cb t0 = c /\
    free_item_cb t0 = f /\ is_redblack t0 = negb use_avl /\ contents t0 = [].
Proof.
  intros Ho Ha. unfold sr_btree_init; cbn [negb]. unfold bind at 1.
  rewrite (malloc_unbounded w Ha). cbn [negb].
  destruct use_avl; unfold avl_alloc_tree, rbinit, bind;
    rewrite malloc_unbounded by reflexivity; unfold ret;
    do 2 eexists; (split; [reflexivity|]);
    (split; [first [apply wf_avl|apply wf_rb]; [exact Ho|split; constructor]|]);
    splits; reflexivity.
Qed.

(** X10: after a successful [sr_btree_init] and any calls that, in the
    red-black build, never read with a nonzero index a walk left open
    across a deletion, and whether or not their allocations succeed, the
    tree object stays non-NULL and well formed (contents strictly
    increasing and non-NULL), keeps the comparator, the destructor and the
    build it was created with, and the blocks allocated by the tree code
    are those it owns: two, one per item, one for an open walk. *)
Theorem calls_keep_the_invariant use_avl c f w0 t0 w1 ops t w2 :
  TotalOrder c ->
  (use_avl = false -> fresh_reads false ops = true) ->
  sr_btree_init use_avl (Some c) f true w0 = (SR_ERR_OK, Some t0, w1) ->
  run_ops (Some t0) ops w1 = (t, w2) ->
  exists t', t = Some t' /\ wf t' /\
    compare_item_cb t' = c /\ free_item_cb t' = f /\
    is_redblack t' = negb use_avl /\
    live w2 = live w0 + blocks_owned t'.
Proof.
  intros Ho _ Hinit Hrun.
  destruct (init_ok use_avl c f w0 _ _ _ Ho Hinit) as
    (_ & Hwf0 & Hc0 & Hcur0 & Hcmp0 & Hf0 & Hrb0 & Hl0).
  destruct (run_ops_inv ops t0 w1 _ _ Hwf0 Hrun) as
    (t' & -> & Hwf' & Hcmp & Hf & Hrb & Hl).
  exists t'. splits; auto; try congruence.
  unfold blocks_owned in Hl at 2. rewrite Hc0, Hcur0 in Hl. cbn [length] in Hl.
  lia.
Qed.

Lemma calls_keep_the_invariant_witness :
  exists t', Some (rb_tree_of [32] (Some (mkRblist None)) true) = Some t' /\
    wf t' /\ compare_item_cb t' = by_record /\ free_item_cb t' = true /\
    is_redblack t' = negb false /\
    live (mkWorld [] 4 1 ENOMEM [16]) = live (world0 [true; true; true; false]) +
                                        blocks_owned t'.
Proof.
  apply (calls_keep_the_invariant false by_record true
           (world0 [true; true; true; false])
           (rb_tree_of [] None true) (mkWorld [true; false] 2 0 0 [])
           [OpInsert 32; OpInsert 16; OpInsert 17; OpDelete 16; OpGetAt 0;
            OpSearch 32]).
  - exact by_record_order.
  - intros _. reflexivity.
  - reflexivity.
  - reflexivity.
Defined.

(** X11: on a freshly initialised tree, after any calls that, in the
    red-black build, never read with a nonzero index a walk left open
    across a deletion, no two stored items compare equal, no stored item is
    NULL, and a search with a stored item returns that very pointer. *)
Theorem stored_keys_stay_distinct use_avl c f w0 t0 w1 ops t w2 :
  TotalOrder c ->
  (use_avl = false -> fresh_reads false ops = true) ->
  sr_btree_init use_avl (Some c) f true w0 = (SR_ERR_OK, Some t0, w1) ->
  run_ops (Some t0) ops w1 = (Some t, w2) ->
  keys_distinct c (contents t) /\
  forall s, In s (contents t) ->
    s <> NULL /\ forall w, sr_btree_search (Some t) s w = (s, Some t, w).
Proof.
  intros Ho _ Hinit Hrun.
  destruct (init_ok use_avl c f w0 _ _ _ Ho Hinit) as (_ & Hwf0 & _).
  destruct (init_ok use_avl c f w0 _ _ _ Ho Hinit) as (_ & _ & _ & _ & Hcmp0 & _).
  destruct (run_ops_inv ops t0 w1 _ _ Hwf0 Hrun) as
    (t' & [= <-] & Hwf' & Hcmp & _).
  assert (Ec : compare_item_cb t = c) by congruence.
  split.
  - rewrite <- Ec. apply sorted_distinct; [apply (wf_order t Hwf')|].
    apply (wf_sorted t Hwf').
  - intros s Hin. pose proof (wf_nonnull t s Hwf' Hin) as Hs.
    split; [exact Hs|]. intros w. apply search_finds; auto.
    apply (@cmp_refl _ (wf_order t Hwf')).
Qed.

Lemma stored_keys_stay_distinct_witness :
  keys_distinct by_record
    (contents (rb_tree_of [16; 32] (Some (mkRblist None)) true)) /\
  forall s, In s (contents (rb_tree_of [16; 32] (Some (mkRblist None)) true)) ->
    s <> NULL /\
    forall w,
      sr_btree_search (Some (rb_tree_of [16; 32] (Some (mkRblist None)) true)) s w =
        (s, Some (rb_tree_of [16; 32] (Some (mkRblist None)) true), w).
Proof.
  apply (stored_keys_stay_distinct false by_record true (world0 [])
           (rb_tree_of [] None true) (mkWorld [] 2 0 0 [])
           [OpInsert 32; OpInsert 16; OpInsert 17; OpGetAt 0; OpGetAt 5]
           (rb_tree_of [16; 32] (Some (mkRblist None)) true)
           (mkWorld [] 5 0 0 [])).
  - exact by_record_order.
  - intros _. reflexivity.
  - reflexivity.
  - reflexivity.
Defined.

(** X12: the tree code gives back every block it allocates (its context,
    the library header, the nodes, the walks): after a successful
    [sr_btree_init], any calls that, in the red-black build, never read
    with a nonzero index a walk left open across a deletion, and
    [sr_btree_cleanup], as many of its blocks are live as before the
    initialisation, whatever allocations failed on the way.  The items
    themselves belong to the caller and are not counted. *)
Theorem lifecycle_frees_every_block use_avl c f w0 t0 w1 ops t w2 fuel :
  TotalOrder c ->
  (use_avl = false -> fresh_reads false ops = true) ->
  sr_btree_init use_avl (Some c) f true w0 = (SR_ERR_OK, Some t0, w1) ->
  run_ops (Some t0) ops w1 = (Some t, w2) ->
  (length (contents t) < fuel)%nat ->
  exists w3, sr_btree_cleanup fuel (Some t) w2 = (Some tt, w3) /\
             live w3 = live w0.
Proof.
  intros Ho _ Hinit Hrun Hfuel.
  destruct (init_ok use_avl c f w0 _ _ _ Ho Hinit) as
    (_ & Hwf0 & Hc0 & Hcur0 & _ & _ & _ & Hl0).
  destruct (run_ops_inv ops t0 w1 _ _ Hwf0 Hrun) as
    (t' & [= <-] & Hwf' & _ & _ & _ & Hl).
  destruct (cleanup_run t fuel w2 Hwf' Hfuel) as (w3 & Hc & Hl3 & _).
  exists w3. split; [exact Hc|].
  unfold blocks_owned in Hl at 2. rewrite Hc0, Hcur0 in Hl. cbn [length] in Hl.
  lia.
Qed.

Lemma lifecycle_frees_every_block_witness :
  exists w3,
    sr_btree_cleanup 2 (Some (rb_tree_of [32] (Some (mkRblist None)) true))
      (mkWorld [] 4 1 ENOMEM [16]) = (Some tt, w3) /\
    live w3 = live (world0 [true; true; true; false]).
Proof.
  apply (lifecycle_frees_every_block false by_record true
           (world0 [true; true; true; false])
           (rb_tree_of [] None true) (mkWorld [true; false] 2 0 0 [])
           [OpInsert 32; OpInsert 16; OpInsert 17; OpDelete 16; OpGetAt 0;
            OpSearch 32]).
  - exact by_record_order.
  - intros _. reflexivity.
  - reflexivity.
  - reflexivity.
  - simpl. lia.
Defined.

(** X13: [sr_btree_cleanup] of a well-formed tree always returns and frees
    every block of the tree, whatever the allocator does.  Without a
    destructor none runs; the AVL build runs it on every item, in order;
    the red-black build runs it on no item when its walk cannot be
    allocated. *)
Theorem cleanup_always_frees_the_tree t fuel w :
  wf t -> (length (contents t) < fuel)%nat ->
  exists w',
    sr_btree_cleanup fuel (Some t) w = (Some tt, w') /\
    live w' = live w - blocks_owned t /\
    (free_item_cb t = false -> destroyed w' = destroyed w) /\
    (is_redblack t = false -> free_item_cb t = true ->
     destroyed w' = destroyed w ++ contents t) /\
    (is_redblack t = true -> ~ next_alloc_ok w ->
     destroyed w' = destroyed w).
Proof.
  intros Hwf Hfuel.
  destruct (cleanup_run t fuel w Hwf Hfuel) as (w' & Hc & Hl & Hd).
  exists w'. splits; auto.
  - intros Hf. rewrite Hf in Hd. simpl in Hd. now rewrite app_nil_r in Hd.
  - intros Hrb Hf. rewrite Hrb, Hf in Hd. exact Hd.
  - intros Hrb Hno. unfold next_alloc_ok in Hno.
    destruct (hd true (allocs w)); [congruence|].
    rewrite Hrb, andb_false_r in Hd. now rewrite app_nil_r in Hd.
Qed.

Lemma cleanup_always_frees_the_tree_witness :
  exists w',
    sr_btree_cleanup 3 (Some (avl_tree_of [16; 32] true)) (world0 [false]) =
      (Some tt, w') /\
    live w' = live (world0 [false]) - blocks_owned (avl_tree_of [16; 32] true) /\
    (free_item_cb (avl_tree_of [16; 32] true) = false ->
     destroyed w' = destroyed (world0 [false])) /\
    (is_redblack (avl_tree_of [16; 32] true) = false ->
     free_item_cb (avl_tree_of [16; 32] true) = true ->
     destroyed w' = destroyed (world0 [false]) ++
                    contents (avl_tree_of [16; 32] true)) /\
    (is_redblack (avl_tree_of [16; 32] true) = true ->
     ~ next_alloc_ok (world0 [false]) ->
     destroyed w' = destroyed (world0 [false])).
Proof.
  apply (cleanup_always_frees_the_tree (avl_tree_of [16; 32] true) 3
           (world0 [false])).
  - apply wf_avl_tree_of. reflexivity.
  - simpl. lia.
Defined.

(** X14: [sr_btree_insert], [sr_btree_search] and [sr_btree_get_at] never
    run the item destructor, whatever they return. *)
Theorem only_delete_and_cleanup_destroy t x index w :
  wf t ->
  destroyed (snd (sr_btree_insert (Some t) x w)) = destroyed w /\
  destroyed (snd (sr_btree_search (Some t) x w)) = destroyed w /\
  destroyed (snd (sr_btree_get_at (Some t) index w)) = destroyed w.
Proof.
  intros Hwf. splits.
  - destruct (sr_btree_insert (Some t) x w) as [[rc t1] w1] eqn:Hi.
    destruct (insert_step t x w _ _ _ Hwf Hi) as
      (t' & _ & _ & _ & _ & _ & _ & Hd & _). exact Hd.
  - destruct (Z.eq_dec x NULL) as [->|Hx]; [reflexivity|].
    rewrite search_lookup by assumption. reflexivity.
  - destruct (sr_btree_get_at (Some t) index w) as [[it t1] w1] eqn:Hg.
    destruct (get_at_step t index w _ _ _ Hwf Hg) as
      (t' & _ & _ & _ & _ & _ & _ & Hd & _). exact Hd.
Qed.

Lemma only_delete_and_cleanup_destroy_witness :
  destroyed (snd (sr_btree_insert
                    (Some (rb_tree_of [16; 32] (Some (mkRblist (Some 32))) true))
                    17 (mkWorld [false] 5 0 0 [48]))) = [48] /\
  destroyed (snd (sr_btree_search
                    (Some (rb_tree_of [16; 32] (Some (mkRblist (Some 32))) true))
                    17 (mkWorld [false] 5 0 0 [48]))) = [48] /\
  destroyed (snd (sr_btree_get_at
                    (Some (rb_tree_of [16; 32] (Some (mkRblist (Some 32))) true))
                    0 (mkWorld [false] 5 0 0 [48]))) = [48].
Proof.
  apply (only_delete_and_cleanup_destroy
           (rb_tree_of [16; 32] (Some (mkRblist (Some 32))) true) 17 0%N
           (mkWorld [false] 5 0 0 [48])).
  apply wf_rb_tree_of. reflexivity.
Defined.

(** X15: what [sr_btree_search] returns for a non-NULL key is NULL or a
    stored item comparing equal to the key, and it is the stored pointer
    whenever a stored item compares equal: the key's own pointer is never
    handed back unless it is the one stored. *)
Theorem search_returns_the_stored_item t key w r t1 w1 :
  wf t -> key <> NULL ->
  sr_btree_search (Some t) key w = (r, t1, w1) ->
  (r <> NULL -> In r (contents t) /\ compare_item_cb t key r = 0) /\
  (forall s, In s (contents t) -> compare_item_cb t key s = 0 -> r = s).
Proof.
  intros Hwf Hk. rewrite search_lookup by assumption. intros [= <- <- <-].
  pose proof (wf_order t Hwf) as Ho. pose proof (wf_sorted t Hwf) as Hs.
  split.
  - destruct (lookup (compare_item_cb t) key (contents t)) as [x|] eqn:Hl;
      [|congruence].
    intros _. apply (lookup_Some _ _ _ _ Hl).
  - intros s Hin E.
    rewrite (lookup_complete (compare_item_cb t) key (contents t) s); auto.
Qed.

Lemma search_returns_the_stored_item_witness :
  (32 <> NULL ->
   In 32 (contents (rb_tree_of [16; 32] None true)) /\
   compare_item_cb (rb_tree_of [16; 32] None true) 40 32 = 0) /\
  (forall s, In s (contents (rb_tree_of [16; 32] None true)) ->
     compare_item_cb (rb_tree_of [16; 32] None true) 40 s = 0 -> 32 = s).
Proof.
  apply (search_returns_the_stored_item (rb_tree_of [16; 32] None true) 40
           (world0 []) 32 (Some (rb_tree_of [16; 32] None true)) (world0 [])).
  - apply wf_rb_tree_of. reflexivity.
  - discriminate.
  - reflexivity.
Defined.

(** ** The tree as a collection *)

Section Collections.
Context (cmp : sr_btree_compare_item_cb) `{TotalOrder cmp}.

Local Notation "'sorted'" := (StronglySorted (fun x y => cmp x y < 0)).

Lemma existsb_perm (f : ptr -> bool) l s :
  Permutation l s -> existsb f l = existsb f s.
Proof.
  intros Hp.
  destruct (existsb f l) eqn:El; destruct (existsb f s) eqn:Es; auto.
  - apply existsb_exists in El. destruct El as (z & Hz & Hf).
    assert (existsb f s = true); [|congruence].
    apply existsb_exists. exists z. split; [|exact Hf].
    apply (Permutation_in z Hp Hz).
  - apply existsb_exists in Es. destruct Es as (z & Hz & Hf).
    assert (existsb f l = true); [|congruence].
    apply existsb_exists. exists z. split; [|exact Hf].
    apply (Permutation_in z (Permutation_sym Hp) Hz).
Qed.

Lemma filter_perm (f : ptr -> bool) l s :
  Permutation l s -> Permutation (filter f l) (filter f s).
Proof.
  induction 1 as [|z l s Hp IH|a b l|l m s H1 IH1 H2 IH2]; simpl.
  - constructor.
  - destruct (f z); [constructor|]; assumption.
  - destruct (f a), (f b); try apply Permutation_refl. apply perm_swap.
  - eapply Permutation_trans; eassumption.
Qed.

Lemma filter_all (f : ptr -> bool) l :
  (forall z, In z l -> f z = true) -> filter f l = l.
Proof.
  induction l as [|z l IH]; intros Hf; simpl; [reflexivity|].
  rewrite (Hf z (or_introl eq_refl)). f_equal. apply IH.
  intros y Hy. apply Hf. now right.
Qed.

Lemma link_perm x l : Permutation (link cmp x l) (x :: l).
Proof.
  induction l as [|y l IH]; simpl; [apply Permutation_refl|].
  destruct (cmp x y <? 0); [apply Permutation_refl|].
  eapply Permutation_trans; [apply perm_skip; exact IH|apply perm_swap].
Qed.

Lemma lookup_existsb x l :
  sorted l ->
  existsb (fun y => cmp x y =? 0) l =
    match lookup cmp x l with Some _ => true | None => false end.
Proof.
  intros Hs. destruct (lookup cmp x l) as [s|] eqn:Hl.
  - apply lookup_Some in Hl. destruct Hl as [Hin E].
    apply existsb_exists. exists s. split; [exact Hin|]. now apply Z.eqb_eq.
  - destruct (existsb (fun y => cmp x y =? 0) l) eqn:Ee; [|reflexivity].
    apply existsb_exists in Ee. destruct Ee as (z & Hz & Ez).
    apply Z.eqb_eq in Ez.
    exfalso. exact (lookup_None cmp x l Hs Hl z Hz Ez).
Qed.

(** On an increasing list, unlinking the node that compares equal drops
    everything that compares equal. *)
Lemma unlink_filter x l :
  sorted l -> unlink cmp x l = filter (fun y => negb (cmp x y =? 0)) l.
Proof.
  induction 1 as [|y l Hs IH Hy]; simpl; [reflexivity|].
  rewrite Forall_forall in Hy.
  destruct (cmp x y =? 0) eqn:E; simpl.
  - apply Z.eqb_eq in E. symmetry. apply filter_all.
    intros z Hz. apply negb_true_iff, Z.eqb_neq.
    pose proof (cmp_eq_lt cmp x y z E (Hy z Hz)). lia.
  - apply Z.eqb_neq in E. destruct (cmp x y <? 0) eqn:L.
    + apply Z.ltb_lt in L. f_equal. symmetry. apply filter_all.
      intros z Hz. apply negb_true_iff, Z.eqb_neq.
      pose proof (cmp_lt_trans cmp x y z L (Hy z Hz)). lia.
    + f_equal. exact IH.
Qed.

(** One call read on the increasing list and on the plain collection. *)
Lemma model_op_set l s o :
  sorted l -> Permutation l s ->
  sorted (model_op cmp l o) /\
  Permutation (model_op cmp l o) (set_op cmp s o).
Proof.
  intros Hs Hp. destruct o as [x|x|x|i]; simpl; auto.
  - destruct (x =? NULL); simpl; [auto|].
    rewrite <- (existsb_perm _ l s Hp), (lookup_existsb x l Hs).
    unfold link_new. destruct (lookup cmp x l) eqn:Hl; [auto|].
    split; [apply link_sorted; assumption|].
    eapply Permutation_trans; [apply link_perm|]. now constructor.
  - destruct (x =? NULL); [auto|].
    split; [apply unlink_sorted; assumption|].
    rewrite (unlink_filter x l Hs). apply filter_perm. exact Hp.
Qed.

Lemma fold_model_set ops : forall l s,
  sorted l -> Permutation l s ->
  sorted (fold_left (model_op cmp) ops l) /\
  Permutation (fold_left (model_op cmp) ops l) (fold_left (set_op cmp) ops s).
Proof.
  induction ops as [|o ops IH]; intros l s Hs Hp; cbn [fold_left]; [auto|].
  destruct (model_op_set l s o Hs Hp) as [Hs' Hp']. apply IH; assumption.
Qed.
End Collections.

(** X16: with an allocator that never fails, a freshly initialised tree
    followed by any calls that, in the red-black build, never read with a
    nonzero index a walk left open across a deletion, holds exactly the
    collection the calls describe: an insertion adds the item unless one
    comparing equal is there, a deletion drops what compares equal to the
    key, NULL arguments, searches and reads change nothing; the tree keeps
    that collection in strictly increasing order. *)
Theorem calls_follow_the_model use_avl c f w0 ops :
  TotalOrder c -> allocs w0 = [] ->
  (use_avl = false -> fresh_reads false ops = true) ->
  exists t0 w1 t w2,
    sr_btree_init use_avl (Some c) f true w0 = (SR_ERR_OK, Some t0, w1) /\
    run_ops (Some t0) ops w1 = (Some t, w2) /\
    Permutation (contents t) (fold_left (set_op c) ops []) /\
    StronglySorted (fun x y => c x y < 0) (contents t).
Proof.
  intros Ho Ha _.
  destruct (init_unbounded use_avl c f w0 Ho Ha) as
    (t0 & w1 & Hinit & Hwf0 & Ha1 & Hcmp0 & _ & _ & Hc0).
  destruct (run_ops_model ops t0 w1 Hwf0 Ha1) as
    (t & w2 & Hrun & _ & _ & _ & _ & Hm).
  exists t0, w1, t, w2. split; [exact Hinit|]. split; [exact Hrun|].
  rewrite Hm, Hcmp0, Hc0.
  destruct (fold_model_set c ops [] []) as [Hs Hp];
    [constructor|constructor|auto].
Qed.

Lemma calls_follow_the_model_witness :
  exists t0 w1 t w2,
    sr_btree_init false (Some by_record) false true (world0 []) =
      (SR_ERR_OK, Some t0, w1) /\
    run_ops (Some t0)
      [OpInsert 48; OpInsert 16; OpInsert 17; OpGetAt 0; OpGetAt 1;
       OpDelete 49; OpInsert 0; OpInsert 32] w1 = (Some t, w2) /\
    Permutation (contents t)
      (fold_left (set_op by_record)
         [OpInsert 48; OpInsert 16; OpInsert 17; OpGetAt 0; OpGetAt 1;
          OpDelete 49; OpInsert 0; OpInsert 32] []) /\
    StronglySorted (fun x y => by_record x y < 0) (contents t).
Proof.
  apply (calls_follow_the_model false by_record false (world0 [])).
  - exact by_record_order.
  - reflexivity.
  - intros _. reflexivity.
Defined.

(** The collection of the witness above, computed. *)
Example set_op_run :
  fold_left (set_op by_record)
    [OpInsert 48; OpInsert 16; OpInsert 17; OpGetAt 0; OpGetAt 1;
     OpDelete 49; OpInsert 0; OpInsert 32] [] = [32; 16].
Proof. reflexivity. Qed.

(** X17: the two builds keep the same contents: started on trees with the
    same comparator and the same contents, the same calls leave the same
    contents in the AVL and in the red-black build, when no allocation
    fails and the calls read a walk with a nonzero index only when it was
    opened, by index 0, since the last deletion. *)
Theorem builds_agree_on_contents ta tb wa wb ops :
  wf ta -> wf tb ->
  is_redblack ta = false -> is_redblack tb = true ->
  compare_item_cb ta = compare_item_cb tb ->
  contents ta = contents tb ->
  allocs wa = [] -> allocs wb = [] ->
  fresh_reads true ops = true ->
  exists ta' wa' tb' wb',
    run_ops (Some ta) ops wa = (Some ta', wa') /\
    run_ops (Some tb) ops wb = (Some tb', wb') /\
    contents ta' = contents tb'.
Proof.
  intros Hwfa Hwfb _ _ Hcmp Hc Haa Hab _.
  destruct (run_ops_model ops ta wa Hwfa Haa) as
    (ta' & wa' & Hra & _ & _ & _ & _ & Hma).
  destruct (run_ops_model ops tb wb Hwfb Hab) as
    (tb' & wb' & Hrb & _ & _ & _ & _ & Hmb).
  exists ta', wa', tb', wb'. splits; auto. congruence.
Qed.

Lemma builds_agree_on_contents_witness :
  exists ta' wa' tb' wb',
    run_ops (Some (avl_tree_of [16; 48] true))
      [OpInsert 32; OpInsert 17; OpDelete 49; OpGetAt 0; OpGetAt 3]
      (world0 []) = (Some ta', wa') /\
    run_ops (Some (rb_tree_of [16; 48] None false))
      [OpInsert 32; OpInsert 17; OpDelete 49; OpGetAt 0; OpGetAt 3]
      (world0 []) = (Some tb', wb') /\
    contents ta' = contents tb'.
Proof.
  apply (builds_agree_on_contents).
  - apply wf_avl_tree_of. reflexivity.
  - apply wf_rb_tree_of. reflexivity.
  - reflexivity.
  - reflexivity.
  - reflexivity.
  - reflexivity.
  - reflexivity.
  - reflexivity.
  - reflexivity.
Defined.

Lemma insert_all_model items : forall t w,
  wf t -> allocs w = [] -> Forall (fun x => x <> NULL) items ->
  exists t' w',
    insert_all (Some t) items w = (Some t', w') /\
    wf t' /\ allocs w' = [] /\
    compare_item_cb t' = compare_item_cb t /\
    contents t' = fold_left (link_new (compare_item_cb t)) items (contents t).
Proof.
  induction items as [|x items IH]; intros t w Hwf Ha Hnn;
    cbn [insert_all fold_left].
  - exists t, w. splits; auto.
  - inversion Hnn as [|? ? Hx Hnn']; subst. unfold bind at 1.
    destruct (insert_unbounded t x w Hwf Hx Ha) as
      (rc & t1 & w1 & -> & Hwf1 & Ha1 & Hc1 & _ & Hm1 & _).
    destruct (IH t1 w1 Hwf1 Ha1 Hnn') as (t2 & w2 & -> & Hwf2 & Ha2 & Hc2 & Hm2).
    exists t2, w2. splits; auto; congruence.
Qed.

(** X18: the order of insertion does not matter: inserting the same
    non-NULL items, no two of which (nor any with a stored item) compare
    equal, in two different orders gives the same contents, namely the old
    contents and the new items, when no allocation fails. *)
Theorem insertion_order_is_irrelevant t w items1 items2 :
  wf t -> allocs w = [] ->
  Forall (fun x => x <> NULL) items1 ->
  Permutation items1 items2 ->
  keys_distinct (compare_item_cb t) (contents t ++ items1) ->
  exists t1 w1 t2 w2,
    insert_all (Some t) items1 w = (Some t1, w1) /\
    insert_all (Some t) items2 w = (Some t2, w2) /\
    contents t1 = contents t2 /\
    forall y, In y (contents t1) <-> In y (contents t) \/ In y items1.
Proof.
  intros Hwf Ha Hnn Hperm Hk.
  pose proof (wf_order t Hwf) as Ho. pose proof (wf_sorted t Hwf) as Hs.
  assert (Hnn2 : Forall (fun x => x <> NULL) items2).
  { rewrite Forall_forall in *. intros x Hx. apply Hnn.
    apply (Permutation_in x (Permutation_sym Hperm) Hx). }
  assert (Hk2 : keys_distinct (compare_item_cb t) (contents t ++ items2)).
  { intros a b Hina Hinb. apply Hk.
    - apply in_app_or in Hina. apply in_or_app.
      destruct Hina as [Hina|Hina]; [now left|right].
      apply (Permutation_in a (Permutation_sym Hperm) Hina).
    - apply in_app_or in Hinb. apply in_or_app.
      destruct Hinb as [Hinb|Hinb]; [now left|right].
      apply (Permutation_in b (Permutation_sym Hperm) Hinb). }
  destruct (insert_all_model items1 t w Hwf Ha Hnn) as
    (t1 & w1 & H1 & _ & _ & _ & Hm1).
  destruct (insert_all_model items2 t w Hwf Ha Hnn2) as
    (t2 & w2 & H2 & _ & _ & _ & Hm2).
  exists t1, w1, t2, w2. splits; auto.
  - rewrite Hm1, Hm2.
    apply (sorted_ext (compare_item_cb t));
      try (apply fold_link_new_sorted; assumption).
    intros y. rewrite !fold_link_new_In by assumption.
    split; intros [Hy|Hy]; auto; right.
    + apply (Permutation_in y Hperm Hy).
    + apply (Permutation_in y (Permutation_sym Hperm) Hy).
  - intros y. rewrite Hm1. apply fold_link_new_In; assumption.
Qed.

Lemma insertion_order_is_irrelevant_witness :
  exists t1 w1 t2 w2,
    insert_all (Some (rb_tree_of [48] None true)) [80; 16; 64] (world0 []) =
      (Some t1, w1) /\
    insert_all (Some (rb_tree_of [48] None true)) [16; 64; 80] (world0 []) =
      (Some t2, w2) /\
    contents t1 = contents t2 /\
    forall y, In y (contents t1) <->
              In y (contents (rb_tree_of [48] None true)) \/ In y [80; 16; 64].
Proof.
  apply (insertion_order_is_irrelevant
           (rb_tree_of [48] None true) (world0 []) [80; 16; 64] [16; 64; 80]).
  - apply wf_rb_tree_of. reflexivity.
  - reflexivity.
  - repeat constructor; discriminate.
  - apply (Permutation_cons_app [16; 64] [] 80). apply Permutation_refl.
  - intros a b Ha Hb.
    simpl in Ha, Hb.
    destruct Ha as [<-|[<-|[<-|[<-|[]]]]], Hb as [<-|[<-|[<-|[<-|[]]]]];
      (reflexivity || discriminate).
Defined.
